(** * Workflow builder: the graph model, its mutation engine and history

    A shallow embedding of [src/utils/workflow.ts] and of the state
    handling in [src/App.tsx] (the single-file variant of the application
    carries the same functions verbatim), followed by the properties the
    specification states about them.

    Conventions of the embedding.
    - A JS object used as a dictionary ([Record<string, WorkflowNode>]) is a
      [gmap] from keys to [option WorkflowNode]: a key bound to [None] is an
      own property whose value is [undefined], which [updateLabel] can
      create.  [getNode] is the JS read [map[k]] of an own key followed by
      a truthiness test; what [map[k]] finds on [Object.prototype] for a
      [k] that is no own key is outside the embedding ([plain_targets]).
    - An optional field ([id?: string]) is an [option string]; the JS
      truthiness test on it ([if (childId)], [filter((edge) => edge.id)])
      is [connected]: defined and not the empty string.
    - A function of the source that returns its argument itself on a no-op
      returns [SameRef]; a newly built object is [Fresh g].  [applyChange]
      compares by reference ([next === prev]), which is the test on this
      constructor.
    - Recursion that the source does not bound ([findParent]) takes fuel;
      [None] stands for a recursion deeper than the fuel.
    - A thrown [TypeError] is [None] in [cloneNodes] and in the steps that
      call it.
    - [idCounter] is a natural number and [Number] reads runs of decimal
      digits; the code's double and its [Number] agree with them on maps
      whose keys are such runs below [2^53] ([counted_keys]). *)

From stdpp Require Import gmap strings list fin_maps pretty relations.

Open Scope string_scope.
Open Scope list_scope.
Open Scope nat_scope.

(** ** Data model ([src/types.ts]) *)

Inductive NodeType := action | branch | end_.

#[global] Instance NodeType_eq_dec : EqDecision NodeType.
Proof. solve_decision. Defined.

Record Edge := mkEdge {
  edge_id : option string;
  edge_label : string
}.

#[global] Instance Edge_eq_dec : EqDecision Edge.
Proof. solve_decision. Defined.

Record WorkflowNode := mkNode {
  node_id : string;
  node_label : string;
  node_type : NodeType;
  children : list Edge
}.

#[global] Instance WorkflowNode_eq_dec : EqDecision WorkflowNode.
Proof. solve_decision. Defined.

Definition ParentMatch : Type := string * nat.

Abbreviation Nodes := (gmap string (option WorkflowNode)).

(** [{ ...node, children: c }] and [{ ...node, label }]. *)
Definition with_children (n : WorkflowNode) (c : list Edge) : WorkflowNode :=
  mkNode (node_id n) (node_label n) (node_type n) c.

Definition with_label (n : WorkflowNode) (l : string) : WorkflowNode :=
  mkNode (node_id n) l (node_type n) (children n).

(** [{ ...edge, id: x }]. *)
Definition with_id (e : Edge) (x : option string) : Edge :=
  mkEdge x (edge_label e).

(** JS truthiness of a string and of an optional string. *)
Definition truthy (s : string) : bool :=
  match s with EmptyString => false | String _ _ => true end.

Definition truthy_opt (o : option string) : option string :=
  match o with
  | Some s => if truthy s then Some s else None
  | None => None
  end.

(** The target an edge is connected to, under the test the code applies. *)
Definition connected (e : Edge) : option string := truthy_opt (edge_id e).

Definition is_connected (e : Edge) : bool :=
  match connected e with Some _ => true | None => false end.

(** [map[k]] for own keys, read where the code then tests the value for
    truthiness. *)
Definition getNode (map : Nodes) (k : string) : option WorkflowNode :=
  match map !! k with
  | Some (Some n) => Some n
  | _ => None
  end.

(** ** [src/utils/workflow.ts] *)

Definition BRANCH_BASE : list string := ["True"; "False"].

Definition has_label (l : string) (edges : list Edge) : bool :=
  existsb (λ e, bool_decide (edge_label e = l)) edges.

(** One round of the [forEach] body: push [{ label }] when no edge has it. *)
Definition ensure_label (edges : list Edge) (l : string) : list Edge :=
  if has_label l edges then edges else edges ++ [mkEdge None l].

Definition ensureBranchEdges (children : list Edge) : list Edge :=
  foldl ensure_label children BRANCH_BASE.

Definition createNode (id : string) (type : NodeType) : WorkflowNode :=
  match type with
  | branch => mkNode id "Branch" type (ensureBranchEdges [])
  | end_ => mkNode id "End" type []
  | action => mkNode id "Action" type []
  end.

(** [cloneNodes] walks [Object.values(map)] and files each copy under the
    node's own [id] field.  Reading [node.id] of an [undefined] value throws.
    JS walks the values in insertion order; the fold here takes the pairs of
    [map_to_list] from the last to the first.  The order shows in the result
    only when two values carry the same [id] field, which [coherent] maps
    exclude. *)
Definition clone_edge (e : Edge) : Edge := mkEdge (edge_id e) (edge_label e).

Definition clone_node (n : WorkflowNode) : WorkflowNode :=
  mkNode (node_id n) (node_label n) (node_type n) (clone_edge <$> children n).

Definition clone_step (kv : string * option WorkflowNode) (acc : option Nodes)
  : option Nodes :=
  match acc, kv.2 with
  | Some result, Some node => Some (<[node_id node := Some (clone_node node)]> result)
  | _, _ => None
  end.

Definition cloneNodes (map : Nodes) : option Nodes :=
  foldr clone_step (Some ∅) (map_to_list map).

(** The loop of [findParent] over the edges of [currentId], from index [i];
    [rec] is the recursive call on a child. *)
Fixpoint scanEdges (rec : string → option (option ParentMatch))
    (currentId targetId : string) (edges : list Edge) (i : nat)
  : option (option ParentMatch) :=
  match edges with
  | [] => Some None
  | e :: rest =>
      if decide (edge_id e = Some targetId) then Some (Some (currentId, i))
      else match connected e with
           | Some childId =>
               match rec childId with
               | None => None
               | Some (Some nested) => Some (Some nested)
               | Some None => scanEdges rec currentId targetId rest (S i)
               end
           | None => scanEdges rec currentId targetId rest (S i)
           end
  end.

Fixpoint findParent (fuel : nat) (currentId targetId : string) (map : Nodes)
  : option (option ParentMatch) :=
  match fuel with
  | 0 => None
  | S fuel' =>
      match getNode map currentId with
      | None => Some None
      | Some node =>
          scanEdges (λ childId, findParent fuel' childId targetId map)
                    currentId targetId (children node) 0
      end
  end.

(** ** [src/App.tsx]: the updaters *)

Definition rootId : string := "node-0".

(** What an updater hands back: its argument itself, or a new object. *)
Inductive Outcome :=
  | SameRef
  | Fresh (next : Nodes).

Definition outcome_nodes (prev : Nodes) (o : Outcome) : Nodes :=
  match o with SameRef => prev | Fresh next => next end.

(** [edges.findIndex((edge) => edge.label === l)]; [None] is [-1]. *)
Fixpoint findIndex (l : string) (edges : list Edge) : option nat :=
  match edges with
  | [] => None
  | e :: rest =>
      if decide (edge_label e = l) then Some 0 else S <$> findIndex l rest
  end.

(** [attachExistingChild] mutates and returns [node]; the caller keeps no
    other use of the old value, so the result stands for the one object. *)
Definition attachExistingChild (node : WorkflowNode) (childId : option string)
  : WorkflowNode :=
  match truthy_opt childId with
  | None => node
  | Some c =>
      match node_type node with
      | branch =>
          let edges := ensureBranchEdges (children node) in
          with_children node (alter (λ e, with_id e (Some c)) 0 edges)
      | action => with_children node [mkEdge (Some c) "Next"]
      | end_ => node
      end
  end.

(** The updater of [addNode]; [newId] is what [nextId()] returned.  The new
    node is entered in [updated] before [attachExistingChild] mutates it;
    both names denote one object, so [updated] holds the mutated node.
    [targetIndex] lies inside the normalised edges ([addNode_shape]), so the
    read [edges[targetIndex].id] and the assignment to that slot are the
    lookup and [alter] of the list. *)
Definition addNode (parentId : string) (branchLabel : option string)
    (type : NodeType) (newId : string) (prev : Nodes) : Outcome :=
  match getNode prev parentId with
  | None => SameRef
  | Some parent =>
      match node_type parent with
      | end_ => SameRef
      | action =>
          let existing := head (children parent) ≫= edge_id in
          let newNode := attachExistingChild (createNode newId type) existing in
          let updated := <[newId := Some newNode]> prev in
          Fresh (<[parentId :=
                    Some (with_children parent [mkEdge (Some newId) "Next"])]> updated)
      | branch =>
          let edges := ensureBranchEdges (children parent) in
          let matchIndex :=
            match truthy_opt branchLabel with
            | Some l => findIndex l edges
            | None => Some 0
            end in
          let targetIndex := default 0 matchIndex in
          let priorTarget := edges !! targetIndex ≫= edge_id in
          let newNode := attachExistingChild (createNode newId type) priorTarget in
          let updated := <[newId := Some newNode]> prev in
          let edges' := alter (λ e, with_id e (Some newId)) targetIndex edges in
          Fresh (<[parentId := Some (with_children parent edges')]> updated)
      end
  end.

(** [adopted.map((edge, idx) => ...)] of [deleteNode]. *)
Definition replacement (base : Edge) (idx : nat) (edge : Edge) : Edge :=
  mkEdge (edge_id edge)
    (if truthy (edge_label edge)
     then edge_label base +:+ " + " +:+ edge_label edge
     else edge_label base +:+ " path " +:+ pretty (idx + 1)).

(** [edges.splice(i, 1, ...items)]. *)
Definition splice1 (i : nat) (items edges : list Edge) : list Edge :=
  take i edges ++ items ++ drop (S i) edges.

(** The edges written back to a Branch parent by [deleteNode].  The index
    comes from [findParent] and lies inside [parent.children]
    ([findParent_index_lt]), where [<[i:=x]>] is the JS assignment and the
    default of [base] is never taken. *)
Definition rewire_branch (edges : list Edge) (edgeIndex : nat)
    (adopted : list Edge) : list Edge :=
  let base := default (mkEdge None "Next") (edges !! edgeIndex) in
  match adopted with
  | [] => <[edgeIndex := with_id base None]> edges
  | [a] => <[edgeIndex := with_id base (edge_id a)]> edges
  | _ => splice1 edgeIndex (imap (replacement base) adopted) edges
  end.

(** The updater of [deleteNode], run once [targetId !== rootId] is known.
    [None]: [findParent] recursed deeper than the fuel. *)
Definition deleteNode_updater (fuel : nat) (targetId : string) (prev : Nodes)
  : option Outcome :=
  match findParent fuel rootId targetId prev with
  | None => None
  | Some None => Some SameRef
  | Some (Some (parentId, edgeIndex)) =>
      match getNode prev parentId, getNode prev targetId with
      | Some parent, Some target =>
          let updated := delete targetId prev in
          let adopted := filter (λ e, is_connected e) (children target) in
          match node_type parent with
          | action =>
              let kept :=
                match adopted with
                | next :: _ =>
                    [mkEdge (edge_id next)
                       (default "Next" (edge_label <$> children parent !! edgeIndex))]
                | [] => []
                end in
              Some (Fresh (<[parentId := Some (with_children parent kept)]> updated))
          | branch =>
              let edges := ensureBranchEdges (children parent) in
              let ensured := ensureBranchEdges (rewire_branch edges edgeIndex adopted) in
              Some (Fresh (<[parentId := Some (with_children parent ensured)]> updated))
          | end_ => Some (Fresh updated)
          end
      | _, _ => Some SameRef
      end
  end.

(** [deleteNode]: the root is refused before any updater runs. *)
Definition deleteNode (fuel : nat) (targetId : string) (prev : Nodes)
  : option Outcome :=
  if decide (targetId = rootId) then Some SameRef
  else deleteNode_updater fuel targetId prev.

(** [updateLabel] always builds a new object; for an id without a node the
    computed property is written with the value [prev[id]], [undefined]. *)
Definition updateLabel (id label : string) (prev : Nodes) : Nodes :=
  <[id := match getNode prev id with
          | Some n => Some (with_label n label)
          | None => None
          end]> prev.

Definition addBranchPath (nodeId : string) (prev : Nodes) : Outcome :=
  match getNode prev nodeId with
  | None => SameRef
  | Some node =>
      if decide (node_type node = branch) then
        let nextLabel := "Path " +:+ pretty (length (children node) + 1) in
        Fresh (<[nodeId :=
                  Some (with_children node (children node ++ [mkEdge None nextLabel]))]> prev)
      else SameRef
  end.

(** ** [src/App.tsx]: node ids *)

(** [s.replace(pat, '')]: the first occurrence of [pat] is dropped. *)
Fixpoint strip_prefix (pat s : string) : option string :=
  match pat, s with
  | EmptyString, _ => Some s
  | String a pat', String b s' =>
      if decide (a = b) then strip_prefix pat' s' else None
  | String _ _, EmptyString => None
  end.

Fixpoint replace_first (pat s : string) : string :=
  match strip_prefix pat s with
  | Some rest => rest
  | None =>
      match s with
      | EmptyString => EmptyString
      | String c s' => String c (replace_first pat s')
      end
  end.

Definition digit (c : Ascii.ascii) : option N :=
  let n := Ascii.N_of_ascii c in
  if decide (48 ≤ n ∧ n ≤ 57)%N then Some (n - 48)%N else None.

Fixpoint Number_go (acc : N) (s : string) : option N :=
  match s with
  | EmptyString => Some acc
  | String c s' =>
      match digit c with
      | Some d => Number_go (acc * 10 + d) s'
      | None => None
      end
  end.

(** [Number(s)] on the strings the application itself produces: a run of
    decimal digits (the empty string is [0]); [None] is [NaN].  Signs,
    fractions, exponents, other radices and surrounding blanks, which
    [Number] also reads, are outside this model and count as [NaN]. *)
Definition Number (s : string) : option N := Number_go 0 s.

(** The [reduce] of the effect that resets [idCounter]; [Math.max] makes the
    order of the keys immaterial. *)
Definition maxId_step (kv : string * option WorkflowNode) (max : N) : N :=
  match Number (replace_first "node-" kv.1) with
  | Some num => N.max max num
  | None => max
  end.

Definition maxId (nodes : Nodes) : N :=
  foldr maxId_step 0%N (map_to_list nodes).

(** [nextId()] as the first call after the effect has run on [nodes]: the
    effect stores [maxId + 1] in [idCounter] after every change of [nodes],
    and [addNode] calls [nextId] once, in an updater that then changes
    [nodes]. *)
Definition nextId (nodes : Nodes) : string :=
  "node-" +:+ pretty (maxId nodes + 1)%N.

(** ** [src/App.tsx]: state and history *)

Record AppState := mkState {
  nodes : Nodes;
  history : list Nodes;
  historyIndex : nat
}.

Definition defaultGraph : Nodes :=
  {[ rootId := Some (mkNode rootId "Start" action []) ]}.

(** The three [useState] initialisers over what [loadInitial] produced. *)
Definition initState (loadInitial : Nodes) : option AppState :=
  match cloneNodes loadInitial with
  | Some c => Some (mkState c [c] 0)
  | None => None
  end.

(** [applyChange]: [None] is a fault (thrown [TypeError], or [findParent]
    beyond its fuel). *)
Definition applyChange (updater : Nodes → option Outcome) (trackHistory : bool)
    (st : AppState) : option AppState :=
  match updater (nodes st) with
  | None => None
  | Some SameRef => Some st
  | Some (Fresh next) =>
      if trackHistory then
        match cloneNodes next with
        | None => None
        | Some snapshot =>
            Some (mkState next
                    (take (historyIndex st + 1) (history st) ++ [snapshot])
                    (historyIndex st + 1))
        end
      else Some (mkState next (history st) (historyIndex st))
  end.

(** [cloneNodes(history[i])]; reading past the array gives [undefined],
    whose [Object.values] throws. *)
Definition restore (i : nat) (st : AppState) : option AppState :=
  match history st !! i with
  | None => None
  | Some h =>
      match cloneNodes h with
      | None => None
      | Some c => Some (mkState c (history st) i)
      end
  end.

Definition undo (st : AppState) : option AppState :=
  if decide (historyIndex st = 0) then Some st
  else restore (historyIndex st - 1) st.

Definition redo (st : AppState) : option AppState :=
  if decide (length (history st) - 1 ≤ historyIndex st) then Some st
  else restore (historyIndex st + 1) st.

(** The operations offered to the user interface. *)
Inductive Op :=
  | Insert (parentId : string) (branchLabel : option string) (type : NodeType)
  | Delete (targetId : string)
  | UpdateLabel (id label : string)
  | AddBranchPath (nodeId : string)
  | Undo
  | Redo.

Definition step (fuel : nat) (st : AppState) (op : Op) : option AppState :=
  match op with
  | Insert parentId branchLabel type =>
      applyChange
        (λ prev, Some (addNode parentId branchLabel type (nextId prev) prev))
        true st
  | Delete targetId =>
      if decide (targetId = rootId) then Some st
      else applyChange (deleteNode_updater fuel targetId) true st
  | UpdateLabel id label =>
      Some (mkState (updateLabel id label (nodes st)) (history st) (historyIndex st))
  | AddBranchPath nodeId =>
      applyChange (λ prev, Some (addBranchPath nodeId prev)) true st
  | Undo => undo st
  | Redo => redo st
  end.

(** A run of operations, each with the fuel its [findParent] may use. *)
Fixpoint run (st : AppState) (ops : list (nat * Op)) : option AppState :=
  match ops with
  | [] => Some st
  | (fuel, op) :: rest =>
      match step fuel st op with
      | Some st' => run st' rest
      | None => None
      end
  end.

(** ** Reachability in a node map *)

(** One edge that the traversal follows: from a stored node along a
    connected edge. *)
Definition edge_step (map : Nodes) (a b : string) : Prop :=
  ∃ n e, getNode map a = Some n ∧ e ∈ children n ∧ connected e = Some b.

Definition reachable (map : Nodes) (u : string) : Prop :=
  rtc (edge_step map) rootId u.

Definition acyclic (map : Nodes) : Prop :=
  ∀ a, ¬ tc (edge_step map) a a.

(** An edge that normalisation may append: unconnected, canonical label. *)
Definition canonical_blank (e : Edge) : Prop :=
  edge_id e = None ∧ edge_label e ∈ BRANCH_BASE.

(** ** The traversal order of the specification

    Depth-first from a node: its edges in stored order, each edge listed
    (owner, index, raw target) before the traversal descends into it, and
    descent only into connected edges.  This follows the words of the
    specification and is compared with [findParent] below. *)
Fixpoint walkEdges (rec : string → option (list (string * nat * option string)))
    (owner : string) (edges : list Edge) (i : nat)
  : option (list (string * nat * option string)) :=
  match edges with
  | [] => Some []
  | e :: rest =>
      below ← match connected e with
              | Some childId => rec childId
              | None => Some []
              end;
      after ← walkEdges rec owner rest (S i);
      Some ((owner, i, edge_id e) :: below ++ after)
  end.

Fixpoint dfs_order (fuel : nat) (from : string) (map : Nodes)
  : option (list (string * nat * option string)) :=
  match fuel with
  | 0 => None
  | S fuel' =>
      match getNode map from with
      | None => Some []
      | Some node =>
          walkEdges (λ childId, dfs_order fuel' childId map) from (children node) 0
      end
  end.

(** The first listed edge whose target is [targetId]. *)
Fixpoint first_target (targetId : string)
    (order : list (string * nat * option string)) : option ParentMatch :=
  match order with
  | [] => None
  | (owner, i, tgt) :: rest =>
      if decide (tgt = Some targetId) then Some (owner, i)
      else first_target targetId rest
  end.

(** An edge of a node that the traversal from [from] can reach. *)
Definition reachable_edge (map : Nodes) (from : string)
    (owner : string) (i : nat) (tgt : option string) : Prop :=
  rtc (edge_step map) from owner ∧
  ∃ n e, getNode map owner = Some n ∧ children n !! i = Some e ∧ edge_id e = tgt.


(** The stored edges carry both canonical labels. *)
Definition has_canonical (edges : list Edge) : Prop :=
  has_label "True" edges = true ∧ has_label "False" edges = true.

(** No stored edge targets [id]. *)
Definition unreferenced (map : Nodes) (id : string) : Prop :=
  ∀ k n e, getNode map k = Some n → e ∈ children n → edge_id e ≠ Some id.

(** ** Invariants of the application state *)

(** Every node is filed under its own [id] field. *)
Definition coherent (map : Nodes) : Prop :=
  ∀ k n, map !! k = Some (Some n) → node_id n = k.

(** No key is bound to [undefined]. *)
Definition all_defined (map : Nodes) : Prop :=
  ∀ k v, map !! k = Some v → is_Some v.

(** The root is stored and is an Action. *)
Definition root_ok (map : Nodes) : Prop :=
  ∃ n, map !! rootId = Some (Some n) ∧ node_type n = action.

Definition graph_ok (map : Nodes) : Prop := root_ok map ∧ coherent map.

Definition snapshot_ok (h : Nodes) : Prop :=
  root_ok h ∧ coherent h ∧ all_defined h.

Definition state_ok (st : AppState) : Prop :=
  root_ok (nodes st) ∧ coherent (nodes st) ∧
  Forall snapshot_ok (history st) ∧
  historyIndex st < length (history st).

(** The shape the data model asks of a node: an Action holds at most one
    edge, a Branch both canonical edges, an End none. *)
Definition node_shaped (n : WorkflowNode) : Prop :=
  match node_type n with
  | action => length (children n) ≤ 1
  | branch => has_canonical (children n)
  | end_ => children n = []
  end.

Definition shaped (map : Nodes) : Prop :=
  ∀ k n, getNode map k = Some n → node_shaped n.

Definition state_shaped (st : AppState) : Prop :=
  shaped (nodes st) ∧ Forall shaped (history st).

(** The operations that [applyChange] runs with [trackHistory]. *)
Definition trackable (op : Op) : bool :=
  match op with
  | Insert _ _ _ | Delete _ | AddBranchPath _ => true
  | UpdateLabel _ _ | Undo | Redo => false
  end.


(** Whether [op], run in [st], hands [applyChange] a new graph to commit. *)
Definition commits_here (fuel : nat) (st : AppState) (op : Op) : bool :=
  match op with
  | Insert parentId branchLabel type =>
      match addNode parentId branchLabel type (nextId (nodes st)) (nodes st) with
      | Fresh _ => true
      | SameRef => false
      end
  | Delete targetId =>
      match deleteNode fuel targetId (nodes st) with
      | Some (Fresh _) => true
      | _ => false
      end
  | AddBranchPath nodeId =>
      match addBranchPath nodeId (nodes st) with
      | Fresh _ => true
      | SameRef => false
      end
  | UpdateLabel _ _ | Undo | Redo => false
  end.


(** ** Checks that decide reachability questions on a given map *)

(** [rank] falls strictly along every connected edge. *)
Definition rank_decreases (rank : string → nat) (map : Nodes) : bool :=
  forallb
    (λ kv : string * option WorkflowNode,
       match kv.2 with
       | Some n =>
           forallb (λ e, match connected e with
                         | Some b => bool_decide (rank b < rank kv.1)
                         | None => true
                         end) (children n)
       | None => true
       end)
    (map_to_list map).

(** Every connected edge of a node listed in [ids] leads into [ids]. *)
Definition closed_under (ids : list string) (map : Nodes) : bool :=
  forallb
    (λ a, match getNode map a with
          | Some n =>
              forallb (λ e, match connected e with
                            | Some b => bool_decide (b ∈ ids)
                            | None => true
                            end) (children n)
          | None => true
          end)
    ids.

(** The number after "node-", counted down from 100: a rank for graphs
    whose edges lead to higher-numbered nodes. *)
Definition rank_by_id (k : string) : nat :=
  100 - N.to_nat (default 0%N (Number (replace_first "node-" k))).

(** ** Sample graphs, each reached from the default graph *)

Definition defaultState : AppState := mkState defaultGraph [defaultGraph] 0.

(** root -> node-1 *)
Definition sampleChain : Nodes :=
  list_to_map
    [("node-0", Some (mkNode "node-0" "Start" action [mkEdge (Some "node-1") "Next"]));
     ("node-1", Some (mkNode "node-1" "Action" action []))].

(** root -> node-1 (Branch), True -> node-2, False -> node-3 *)
Definition sampleFork : Nodes :=
  list_to_map
    [("node-0", Some (mkNode "node-0" "Start" action [mkEdge (Some "node-1") "Next"]));
     ("node-1", Some (mkNode "node-1" "Branch" branch
                        [mkEdge (Some "node-2") "True"; mkEdge (Some "node-3") "False"]));
     ("node-2", Some (mkNode "node-2" "Action" action []));
     ("node-3", Some (mkNode "node-3" "Action" action []))].

(** root -> node-1 (Branch), True -> node-2 (Branch), whose True and False
    lead to node-3 and node-4 *)
Definition sampleNested : Nodes :=
  list_to_map
    [("node-0", Some (mkNode "node-0" "Start" action [mkEdge (Some "node-1") "Next"]));
     ("node-1", Some (mkNode "node-1" "Branch" branch
                        [mkEdge (Some "node-2") "True"; mkEdge None "False"]));
     ("node-2", Some (mkNode "node-2" "Branch" branch
                        [mkEdge (Some "node-3") "True"; mkEdge (Some "node-4") "False"]));
     ("node-3", Some (mkNode "node-3" "Action" action []));
     ("node-4", Some (mkNode "node-4" "Action" action []))].

(** root -> node-2, and apart from it node-3 -> node-4: what is left of a
    fork whose Branch was deleted under the Action root. *)
Definition sampleOrphan : Nodes :=
  list_to_map
    [("node-0", Some (mkNode "node-0" "Start" action [mkEdge (Some "node-2") "Next"]));
     ("node-2", Some (mkNode "node-2" "Action" action []));
     ("node-3", Some (mkNode "node-3" "Action" action [mkEdge (Some "node-4") "Next"]));
     ("node-4", Some (mkNode "node-4" "Action" action []))].

Definition opsChain : list (nat * Op) := [(9, Insert "node-0" None action)].

Definition opsFork : list (nat * Op) :=
  [(9, Insert "node-0" None branch);
   (9, Insert "node-1" (Some "True") action);
   (9, Insert "node-1" (Some "False") action)].

Definition opsNested : list (nat * Op) :=
  [(9, Insert "node-0" None branch);
   (9, Insert "node-1" (Some "True") branch);
   (9, Insert "node-2" (Some "True") action);
   (9, Insert "node-2" (Some "False") action)].

Definition opsOrphan : list (nat * Op) :=
  opsFork ++ [(9, Insert "node-3" None action); (9, Delete "node-1")].

(** [sampleFork] after Delete of its Branch node-1. *)
Definition sampleForkDeleted : Nodes :=
  list_to_map
    [("node-0", Some (mkNode "node-0" "Start" action [mkEdge (Some "node-2") "Next"]));
     ("node-2", Some (mkNode "node-2" "Action" action []));
     ("node-3", Some (mkNode "node-3" "Action" action []))].

(** [sampleChain] after Insert of an End node under the root. *)
Definition sampleChainEnd : Nodes :=
  list_to_map
    [("node-0", Some (mkNode "node-0" "Start" action [mkEdge (Some "node-2") "Next"]));
     ("node-1", Some (mkNode "node-1" "Action" action []));
     ("node-2", Some (mkNode "node-2" "End" end_ []))].


(** No stored edge of [map] targets [id], as a check. *)
Definition no_edge_to (id : string) (map : Nodes) : bool :=
  forallb
    (λ kv : string * option WorkflowNode,
       match kv.2 with
       | Some n => forallb (λ e, bool_decide (edge_id e ≠ Some id)) (children n)
       | None => true
       end)
    (map_to_list map).

Definition opsMixed : list (nat * Op) :=
  opsOrphan ++
  [(9, UpdateLabel "node-0" "Begin"); (9, AddBranchPath "node-2");
   (9, Undo); (9, Undo); (9, Redo); (9, Delete "node-0");
   (9, UpdateLabel "node-77" "nobody")].

(** The live graph is the history entry under the cursor: no label edit
    since the last commit, undo or redo. *)
Definition live_synced (st : AppState) : Prop :=
  history st !! historyIndex st = Some (nodes st).

(** ** [src/components/NodeView.tsx]: what the view shows and offers *)

(** The edges a card lists: a Branch its normalised edges, an Action its
    edges or, having none, one blank "Next", an End none. *)
Definition viewEdges (node : WorkflowNode) : list Edge :=
  match node_type node with
  | branch => ensureBranchEdges (children node)
  | action =>
      match children node with
      | [] => [mkEdge None "Next"]
      | _ :: _ => children node
      end
  | end_ => []
  end.

(** [handleInsert]: the label goes to [addNode] only from a Branch card. *)
Definition insertLabel (node : WorkflowNode) (e : Edge) : option string :=
  match node_type node with
  | branch => Some (edge_label e)
  | _ => None
  end.

(** The cards that [NodeView] renders for [nodeId], in document order: the
    card itself, then under each listed edge with a truthy [id] the cards
    of that id; nothing for an id without a node. *)
Fixpoint renderEdges (rec : string → option (list string)) (edges : list Edge)
  : option (list string) :=
  match edges with
  | [] => Some []
  | e :: rest =>
      below ← match connected e with
              | Some childId => rec childId
              | None => Some []
              end;
      after ← renderEdges rec rest;
      Some (below ++ after)
  end.

Fixpoint renderNodeView (fuel : nat) (nodeId : string) (nodes : Nodes)
  : option (list string) :=
  match fuel with
  | 0 => None
  | S fuel' =>
      match getNode nodes nodeId with
      | None => Some []
      | Some node =>
          below ← renderEdges (λ childId, renderNodeView fuel' childId nodes)
                     (viewEdges node);
          Some (nodeId :: below)
      end
  end.

(** ** [src/App.tsx]: [loadInitial]

    [stored] is what [JSON.parse] made of the saved text; [None] stands for
    every way not to get there (no window, nothing saved, a parse error). *)
Definition loadInitial (stored : option Nodes) : Nodes :=
  match stored with
  | None => defaultGraph
  | Some parsed =>
      match getNode parsed rootId with
      | None => defaultGraph
      | Some _ => parsed
      end
  end.

(** The state after the run [opsFork], and after one Undo more. *)
Definition stateFork : AppState :=
  default defaultState (run defaultState opsFork).

Definition stateForkUndone : AppState :=
  default defaultState (run defaultState (opsFork ++ [(9, Undo)])).

(** A saved map with a root, filed under the id fields. *)
Definition savedChain : option Nodes := Some sampleChain.

(** ** The maps on which the model reads as the code does

    [getNode] reads own keys.  The JS read [map[k]] goes on to
    [Object.prototype] when [k] is no own key of [map], and for the names
    below it finds a function there (for [__proto__] the prototype itself),
    a truthy value without [children].  The traversals read the start id
    and the targets of connected edges, so [plain_targets] keeps those reads
    away from such names.

    [Number] reads runs of decimal digits and [nextId] counts in [N]; the
    code keeps [idCounter] in a double, exact on whole numbers up to
    [2^53], and its [Number] also reads signs, fractions, exponents, other
    radices and [Infinity].  On [counted_keys] maps every key, with the
    first "node-" taken out, is a run of digits below [2^53], and the two
    counters agree.

    [cloneNodes] assigns [result[node.id]]: that adds a key unless the id is
    [__proto__], which sets the prototype of [result] instead; and with two
    values of one id the later in insertion order wins, an order a [gmap]
    does not keep.  [clonable] maps have neither. *)
Definition prototype_names : list string :=
  ["constructor"; "hasOwnProperty"; "isPrototypeOf"; "propertyIsEnumerable";
   "toLocaleString"; "toString"; "valueOf"; "__proto__";
   "__defineGetter__"; "__defineSetter__"; "__lookupGetter__";
   "__lookupSetter__"].

Definition inherited (k : string) : bool := bool_decide (k ∈ prototype_names).

Definition edge_plain (e : Edge) : bool :=
  match connected e with
  | Some c => negb (inherited c)
  | None => true
  end.

Definition plain_targets (map : Nodes) : Prop :=
  ∀ k n e, getNode map k = Some n → e ∈ children n → edge_plain e = true.

Definition counted (k : string) : bool :=
  match Number (replace_first "node-" k) with
  | Some n => bool_decide (n < 2 ^ 53)%N
  | None => false
  end.

Definition counted_keys (map : Nodes) : Prop :=
  ∀ k v, map !! k = Some v → counted k = true.

Definition stored_ids (map : Nodes) : list string :=
  omap (λ kv : string * option WorkflowNode, node_id <$> kv.2) (map_to_list map).

Definition clonable (map : Nodes) : Prop :=
  NoDup (stored_ids map) ∧ "__proto__" ∉ stored_ids map.

(** The three as checks on a given map. *)
Definition plain_targets_check (map : Nodes) : bool :=
  forallb
    (λ kv : string * option WorkflowNode,
       match kv.2 with
       | Some n => forallb edge_plain (children n)
       | None => true
       end)
    (map_to_list map).

Definition counted_keys_check (map : Nodes) : bool :=
  forallb (λ kv : string * option WorkflowNode, counted kv.1) (map_to_list map).

Definition clonable_check (map : Nodes) : bool :=
  bool_decide (NoDup (stored_ids map)) &&
  bool_decide ("__proto__" ∉ stored_ids map).

(** A saved map whose Branch node-1 holds one edge, labelled "Yes": no
    canonical edge is stored. *)
Definition sampleBare : Nodes :=
  list_to_map
    [("node-0", Some (mkNode "node-0" "Start" action [mkEdge (Some "node-1") "Next"]));
     ("node-1", Some (mkNode "node-1" "Branch" branch [mkEdge (Some "node-2") "Yes"]));
     ("node-2", Some (mkNode "node-2" "Action" action []))].

(** What [applyChange] answers when it commits [next] from [st]: [next] is
    live, the history is the old one cut after the cursor and extended by a
    snapshot equal to [next], and the cursor is on that snapshot. *)
Definition committed (st : AppState) (next : Nodes) (r : option AppState) : Prop :=
  r = Some (mkState next
              (take (historyIndex st + 1) (history st) ++ [next])
              (historyIndex st + 1)).

(** * Properties *)

(** ** Branch-edge normalisation *)

Section Normalise.
Implicit Types (edges extra : list Edge) (l : string).

Lemma has_label_app l edges extra :
  has_label l (edges ++ extra) = has_label l edges || has_label l extra.
Proof. unfold has_label. apply existsb_app. Qed.


Lemma ensure_label_has l edges : has_label l (ensure_label edges l) = true.
Proof.
  unfold ensure_label. destruct (has_label l edges) eqn:E; [done|].
  rewrite has_label_app. simpl. rewrite bool_decide_eq_true_2 by done.
  by rewrite orb_true_r.
Qed.

Lemma ensure_label_keeps l l' edges :
  has_label l edges = true → has_label l (ensure_label edges l') = true.
Proof.
  intros H. unfold ensure_label. destruct (has_label l' edges); [done|].
  by rewrite has_label_app, H.
Qed.

Lemma ensure_label_id l edges :
  has_label l edges = true → ensure_label edges l = edges.
Proof. intros H. unfold ensure_label. by rewrite H. Qed.

Lemma ensure_has_True edges : has_label "True" (ensureBranchEdges edges) = true.
Proof. apply ensure_label_keeps, ensure_label_has. Qed.

Lemma ensure_has_False edges : has_label "False" (ensureBranchEdges edges) = true.
Proof. apply ensure_label_has. Qed.

Lemma ensure_fixed edges :
  has_label "True" edges = true → has_label "False" edges = true →
  ensureBranchEdges edges = edges.
Proof.
  intros HT HF. unfold ensureBranchEdges. simpl.
  by rewrite (ensure_label_id "True"), (ensure_label_id "False").
Qed.

Lemma ensure_label_appends l edges :
  l ∈ BRANCH_BASE →
  ∃ extra, ensure_label edges l = edges ++ extra ∧ Forall canonical_blank extra.
Proof.
  intros Hl. unfold ensure_label. destruct (has_label l edges).
  - exists []. by rewrite app_nil_r.
  - exists [mkEdge None l]. split; [done|].
    apply Forall_cons; split; [done | apply Forall_nil_2].
Qed.

Lemma ensure_appends edges :
  ∃ extra, ensureBranchEdges edges = edges ++ extra ∧ Forall canonical_blank extra.
Proof.
  unfold ensureBranchEdges. simpl.
  destruct (ensure_label_appends "True" edges) as (x1 & -> & H1).
  { unfold BRANCH_BASE. set_solver. }
  destruct (ensure_label_appends "False" (edges ++ x1)) as (x2 & -> & H2).
  { unfold BRANCH_BASE. set_solver. }
  exists (x1 ++ x2). rewrite <- app_assoc. split; [done|].
  by apply Forall_app.
Qed.

Lemma ensure_lookup_lt edges i :
  i < length edges → ensureBranchEdges edges !! i = edges !! i.
Proof.
  intros Hi. destruct (ensure_appends edges) as (extra & -> & _).
  by apply lookup_app_l.
Qed.

Lemma ensure_lookup_Some edges i e :
  edges !! i = Some e → ensureBranchEdges edges !! i = Some e.
Proof.
  intros H. rewrite ensure_lookup_lt; [done|]. by eapply lookup_lt_Some.
Qed.

Lemma ensure_elem edges e : e ∈ edges → e ∈ ensureBranchEdges edges.
Proof.
  intros H. destruct (ensure_appends edges) as (extra & -> & _).
  apply elem_of_app. by left.
Qed.

Lemma canonical_blank_unconnected e : canonical_blank e → connected e = None.
Proof. intros [H _]. unfold connected. by rewrite H. Qed.

Lemma ensure_connected_elem edges e b :
  e ∈ ensureBranchEdges edges → connected e = Some b → e ∈ edges.
Proof.
  destruct (ensure_appends edges) as (extra & -> & Hex).
  intros [H|H]%elem_of_app Hc; [done|].
  rewrite Forall_forall in Hex.
  apply Hex, canonical_blank_unconnected in H. congruence.
Qed.

Lemma ensure_length edges : 2 ≤ length (ensureBranchEdges edges).
Proof.
  pose proof (ensure_has_True edges) as HT.
  pose proof (ensure_has_False edges) as HF.
  destruct (ensureBranchEdges edges) as [|a [|b r]]; simpl in *; try lia.
  rewrite orb_false_r in HT, HF.
  apply bool_decide_eq_true in HT, HF. congruence.
Qed.
End Normalise.


(** C7. Branch-edge normalisation is idempotent: normalising an already
    normalised edge sequence returns it as it is, for every edge sequence. *)
Theorem ensureBranchEdges_idempotent (e : list Edge) :
  ensureBranchEdges (ensureBranchEdges e) = ensureBranchEdges e.
Proof.
  unfold ensureBranchEdges at 1. simpl.
  rewrite (ensure_label_id "True") by apply ensure_has_True.
  by rewrite (ensure_label_id "False") by apply ensure_has_False.
Qed.

(** ** Parent lookup *)

Section FindParent.
Implicit Types (map : Nodes) (edges : list Edge).

Lemma connected_Some e c : connected e = Some c → edge_id e = Some c ∧ c ≠ "".
Proof.
  unfold connected, truthy_opt. destruct (edge_id e) as [s|]; [|done].
  destruct s; simpl; [done|]. by intros [= <-].
Qed.

Lemma connected_intro e c : edge_id e = Some c → c ≠ "" → connected e = Some c.
Proof. unfold connected. intros -> H. by destruct c. Qed.

Lemma getNode_Some map k n : getNode map k = Some n ↔ map !! k = Some (Some n).
Proof.
  unfold getNode. destruct (map !! k) as [[?|]|]; split; congruence.
Qed.

Lemma getNode_insert map k v :
  getNode (<[k := v]> map) k = v.
Proof. unfold getNode. rewrite lookup_insert_eq. by destruct v. Qed.

Lemma getNode_insert_ne map k k' v :
  k ≠ k' → getNode (<[k := v]> map) k' = getNode map k'.
Proof. intros H. unfold getNode. by rewrite lookup_insert_ne. Qed.

Lemma getNode_delete map k : getNode (delete k map) k = None.
Proof. unfold getNode. by rewrite lookup_delete_eq. Qed.

Lemma getNode_delete_ne map k k' :
  k ≠ k' → getNode (delete k map) k' = getNode map k'.
Proof. intros H. unfold getNode. by rewrite lookup_delete_ne. Qed.

(** Where a successful scan found its answer: at an edge of this node, or
    below a connected edge that does not itself target [targetId]. *)
Lemma scanEdges_inv rec cur t edges i r :
  scanEdges rec cur t edges i = Some (Some r) →
  (∃ k e, edges !! k = Some e ∧ edge_id e = Some t ∧ r = (cur, i + k)) ∨
  (∃ e c, e ∈ edges ∧ edge_id e ≠ Some t ∧ connected e = Some c ∧
          rec c = Some (Some r)).
Proof.
  revert i. induction edges as [|e rest IH]; intros i; simpl; [done|].
  destruct (decide (edge_id e = Some t)) as [He|He].
  - intros [= <-]. left. exists 0, e. by rewrite Nat.add_0_r.
  - assert (scanEdges rec cur t rest (S i) = Some (Some r) →
            (∃ k e0, (e :: rest) !! k = Some e0 ∧ edge_id e0 = Some t ∧
                     r = (cur, i + k)) ∨
            (∃ e0 c, e0 ∈ e :: rest ∧ edge_id e0 ≠ Some t ∧
                     connected e0 = Some c ∧ rec c = Some (Some r))) as Hrest.
    { intros [(k & e0 & Hk & H0 & ->)|(e0 & c & Hin & H0 & Hc & Hr)]%IH.
      - left. exists (S k), e0. split; [done|]. split; [done|]. f_equal. lia.
      - right. exists e0, c. split; [by right|done]. }
    destruct (connected e) as [c|] eqn:Hc; [|done].
    destruct (rec c) as [[nested|]|] eqn:Hrec; [|done|done].
    intros [= <-]. right. exists e, c. split; [by left|done].
Qed.

(** What a match means: the edge found targets [t]; the way down to its
    owner never passes through [t]. *)
Lemma findParent_sound fuel cur t map p i :
  findParent fuel cur t map = Some (Some (p, i)) →
  rtc (λ a b, edge_step map a b ∧ b ≠ t) cur p ∧
  ∃ n e, getNode map p = Some n ∧ children n !! i = Some e ∧
         edge_id e = Some t.
Proof.
  revert cur. induction fuel as [|fuel IH]; intros cur; simpl; [done|].
  destruct (getNode map cur) as [node|] eqn:Hnode; [|done].
  intros [(k & e & Hk & He & [= -> ->])|(e & c & Hin & He & Hc & Hr)]%scanEdges_inv.
  - split; [done|]. by exists node, e.
  - apply IH in Hr as [Hpath Hedge]. split; [|done].
    eapply rtc_l; [|done]. split.
    + by exists node, e.
    + apply connected_Some in Hc as [Hc _]. congruence.
Qed.

Lemma findParent_index_lt fuel cur t map p i n :
  findParent fuel cur t map = Some (Some (p, i)) →
  getNode map p = Some n → i < length (children n).
Proof.
  intros (_ & n' & e & Hn & He & _)%findParent_sound Hp.
  rewrite Hp in Hn. injection Hn as <-. by eapply lookup_lt_Some.
Qed.

(** More fuel never changes an answer. *)
Lemma scanEdges_mono rec rec' cur t edges i r :
  (∀ c r', rec c = Some r' → rec' c = Some r') →
  scanEdges rec cur t edges i = Some r →
  scanEdges rec' cur t edges i = Some r.
Proof.
  intros Hrec. revert i. induction edges as [|e rest IH]; intros i; simpl; [done|].
  destruct (decide (edge_id e = Some t)); [done|].
  destruct (connected e) as [c|]; [|by apply IH].
  destruct (rec c) as [[nested|]|] eqn:Hc; [| |done].
  - rewrite (Hrec _ _ Hc). done.
  - rewrite (Hrec _ _ Hc). by apply IH.
Qed.

Lemma findParent_mono fuel fuel' cur t map r :
  fuel ≤ fuel' →
  findParent fuel cur t map = Some r → findParent fuel' cur t map = Some r.
Proof.
  revert fuel' cur r. induction fuel as [|fuel IH]; intros fuel' cur r Hle; [done|].
  destruct fuel' as [|fuel']; [lia|]. simpl.
  destruct (getNode map cur) as [node|]; [|done].
  apply scanEdges_mono. intros c r'. apply IH. lia.
Qed.

Lemma findParent_deterministic fuel fuel' cur t map r r' :
  findParent fuel cur t map = Some r →
  findParent fuel' cur t map = Some r' → r = r'.
Proof.
  intros H H'.
  apply (findParent_mono _ (fuel `max` fuel')) in H; [|lia].
  apply (findParent_mono _ (fuel `max` fuel')) in H'; [|lia]. congruence.
Qed.
End FindParent.

(** ** [findParent] against the traversal order *)

Section DfsOrder.
Implicit Types (map : Nodes) (edges : list Edge).
Implicit Types (order : list (string * nat * option string)).

Lemma first_target_app t order order' :
  first_target t (order ++ order') =
  match first_target t order with
  | Some r => Some r
  | None => first_target t order'
  end.
Proof.
  induction order as [|[[o i] x] rest IH]; simpl; [done|].
  by destruct (decide (x = Some t)).
Qed.

Lemma first_target_Some t order p i :
  first_target t order = Some (p, i) → (p, i, Some t) ∈ order.
Proof.
  induction order as [|[[o j] x] rest IH]; simpl; [done|].
  destruct (decide (x = Some t)) as [->|].
  - intros [= -> ->]. by left.
  - intros H. right. by apply IH.
Qed.

Lemma first_target_None t order :
  first_target t order = None ↔ ∀ p i, (p, i, Some t) ∉ order.
Proof.
  induction order as [|[[o j] x] rest IH]; simpl.
  - split; [|done]. intros _ p i. apply not_elem_of_nil.
  - destruct (decide (x = Some t)) as [->|Hx].
    + split; [done|]. intros H. destruct (H o j). by left.
    + rewrite IH. split.
      * intros H p i [Heq|Hin]%elem_of_cons; [congruence|]. by eapply H.
      * intros H p i Hin. eapply H. by right.
Qed.

(** The scan of [findParent] stops at the first listed match. *)
Lemma scanEdges_walkEdges rec rec' cur t edges i order :
  (∀ c oc, rec c = Some oc → rec' c = Some (first_target t oc)) →
  walkEdges rec cur edges i = Some order →
  scanEdges rec' cur t edges i = Some (first_target t order).
Proof.
  intros Hrec. revert i order.
  induction edges as [|e rest IH]; intros i order; simpl.
  - by intros [= <-].
  - intros (below & Hbelow & (after & Hafter & [= <-])%bind_Some)%bind_Some.
    simpl. destruct (decide (edge_id e = Some t)); [done|].
    rewrite first_target_app. destruct (connected e) as [c|].
    + rewrite (Hrec _ _ Hbelow).
      destruct (first_target t below); [done|]. by apply IH.
    + injection Hbelow as <-. simpl. by apply IH.
Qed.

Lemma findParent_dfs_order fuel cur t map order :
  dfs_order fuel cur map = Some order →
  findParent fuel cur t map = Some (first_target t order).
Proof.
  revert cur order. induction fuel as [|fuel IH]; intros cur order; simpl; [done|].
  destruct (getNode map cur) as [node|].
  - apply scanEdges_walkEdges. intros c oc. apply IH.
  - by intros [= <-].
Qed.

(** What the listing contains. *)
Lemma walkEdges_elem rec cur edges i order x :
  walkEdges rec cur edges i = Some order →
  x ∈ order ↔
  (∃ k e, edges !! k = Some e ∧ x = (cur, i + k, edge_id e)) ∨
  (∃ e c oc, e ∈ edges ∧ connected e = Some c ∧ rec c = Some oc ∧ x ∈ oc).
Proof.
  revert i order. induction edges as [|e rest IH]; intros i order; simpl.
  - intros [= <-]. split.
    + by intros ?%elem_of_nil.
    + intros [(k & e & H & _)|(e & c & oc & H%elem_of_nil & _)]; done.
  - intros (below & Hbelow & (after & Hafter & [= <-])%bind_Some)%bind_Some.
    rewrite elem_of_cons, elem_of_app, (IH _ _ Hafter). split.
    + intros [->|[Hin|[(k & e0 & Hk & ->)|(e0 & c & oc & Hin & Hc & Hr & Hx)]]].
      * left. exists 0, e. by rewrite Nat.add_0_r.
      * destruct (connected e) as [c|] eqn:Hc.
        -- right. exists e, c, below. split; [by left|done].
        -- injection Hbelow as <-. by apply elem_of_nil in Hin.
      * left. exists (S k), e0. split; [done|]. do 2 f_equal. lia.
      * right. exists e0, c, oc. split; [by right|done].
    + intros [(k & e0 & Hk & ->)|(e0 & c & oc & Hin & Hc & Hr & Hx)].
      * destruct k as [|k]; simpl in Hk.
        -- injection Hk as <-. left. by rewrite Nat.add_0_r.
        -- right. right. left. exists k, e0. split; [done|]. do 2 f_equal. lia.
      * apply elem_of_cons in Hin as [->|Hin].
        -- right. left. rewrite Hc in Hbelow. congruence.
        -- right. right. right. by exists e0, c, oc.
Qed.

Lemma dfs_order_sound fuel cur map order p i x :
  dfs_order fuel cur map = Some order →
  (p, i, x) ∈ order → reachable_edge map cur p i x.
Proof.
  revert cur order. induction fuel as [|fuel IH]; intros cur order; simpl; [done|].
  destruct (getNode map cur) as [node|] eqn:Hnode.
  - intros Hw Hin. rewrite (walkEdges_elem _ _ _ _ _ _ Hw) in Hin.
    destruct Hin as [(k & e & Hk & [= -> -> ->])|(e & c & oc & Hin & Hc & Hr & Hx)].
    + split; [done|]. by exists node, e.
    + destruct (IH _ _ Hr Hx) as [Hpath Hedge]. split; [|done].
      eapply rtc_l; [|done]. by exists node, e.
  - intros [= <-] ?%elem_of_nil. done.
Qed.

Lemma dfs_order_complete fuel cur map order p i x :
  dfs_order fuel cur map = Some order →
  reachable_edge map cur p i x → (p, i, x) ∈ order.
Proof.
  revert cur order. induction fuel as [|fuel IH]; intros cur order; simpl; [done|].
  intros Hd [Hpath (n & e & Hn & He & Hx)].
  destruct Hpath as [|cur c p (node & e' & Hnode & Hin & Hc) Hrest].
  - rewrite Hn in Hd. rewrite (walkEdges_elem _ _ _ _ _ _ Hd).
    left. exists i, e. by subst.
  - rewrite Hnode in Hd. rewrite (walkEdges_elem _ _ _ _ _ _ Hd). right.
    assert (is_Some (dfs_order fuel c map)) as [oc Hoc].
    { clear -Hd Hin Hc. revert order Hd. generalize 0.
      induction (children node) as [|e0 rest IHr]; intros i0 order; simpl.
      - by apply elem_of_nil in Hin.
      - intros (below & Hbelow & (after & Hafter & _)%bind_Some)%bind_Some.
        apply elem_of_cons in Hin as [<-|Hin].
        + rewrite Hc in Hbelow. by exists below.
        + by eapply IHr. }
    exists e', c, oc. split; [done|]. split; [done|]. split; [done|].
    eapply IH; [done|]. split; [done|]. by exists n, e.
Qed.

(** In an acyclic map the traversal ends: a descent never meets a node
    twice, so it is no deeper than the map is large. *)
Lemma walkEdges_is_Some rec cur edges i :
  (∀ e c, e ∈ edges → connected e = Some c → is_Some (rec c)) →
  is_Some (walkEdges rec cur edges i).
Proof.
  revert i. induction edges as [|e rest IH]; intros i Hrec; simpl; [done|].
  assert (is_Some (match connected e with
                   | Some childId => rec childId
                   | None => Some []
                   end)) as [below ->].
  { destruct (connected e) as [c|] eqn:Hc; [|done].
    eapply Hrec; [by left|done]. }
  simpl. destruct (IH (S i)) as [after ->]; [|done].
  intros e0 c Hin. apply Hrec. by right.
Qed.

Lemma ancestors_bound map (anc : list string) :
  NoDup anc → (∀ a, a ∈ anc → is_Some (map !! a)) → length anc ≤ size map.
Proof.
  intros Hnd Hin. rewrite <- size_dom. unfold size, set_size. simpl.
  apply submseteq_length, NoDup_submseteq; [done|].
  intros a Ha. apply elem_of_elements, elem_of_dom. by apply Hin.
Qed.

Lemma dfs_order_is_Some map fuel cur (anc : list string) :
  acyclic map → NoDup anc →
  (∀ a, a ∈ anc → is_Some (map !! a) ∧ tc (edge_step map) a cur) →
  size map < fuel + length anc →
  is_Some (dfs_order fuel cur map).
Proof.
  intros Hacyc. revert cur anc.
  induction fuel as [|fuel IH]; intros cur anc Hnd Hanc Hsize.
  - pose proof (ancestors_bound map anc Hnd) as Hb.
    assert (length anc ≤ size map); [|simpl in *; lia].
    apply Hb. intros a Ha. by apply Hanc.
  - simpl. destruct (getNode map cur) as [node|] eqn:Hnode; [|done].
    apply walkEdges_is_Some. intros e c Hin Hc.
    assert (edge_step map cur c) as Hstep by (by exists node, e).
    apply (IH c (cur :: anc)).
    + apply NoDup_cons. split; [|done].
      intros Hcur. apply Hanc in Hcur as [_ Hcyc]. by apply (Hacyc cur).
    + intros a [->|Ha]%elem_of_cons.
      * split; [|by apply tc_once].
        apply getNode_Some in Hnode. by rewrite Hnode.
      * destruct (Hanc a Ha) as [? Htc]. split; [done|].
        eapply tc_r; done.
    + simpl. lia.
Qed.
End DfsOrder.

(** In an acyclic map the search finds a parent for every id that some
    reachable edge targets. *)
Lemma findParent_locates (map : Nodes) (from t owner : string) (i : nat) :
  acyclic map → reachable_edge map from owner i (Some t) →
  ∃ r, findParent (S (size map)) from t map = Some (Some r).
Proof.
  intros Hacyc Hedge.
  destruct (dfs_order_is_Some map (S (size map)) from [] Hacyc) as [order Horder].
  { apply NoDup_nil_2. }
  { by intros a ?%elem_of_nil. }
  { simpl. lia. }
  rewrite (findParent_dfs_order _ _ t _ _ Horder).
  destruct (first_target t order) as [r|] eqn:Hfirst; [by exists r|].
  exfalso. rewrite first_target_None in Hfirst.
  apply (Hfirst owner i). by eapply dfs_order_complete.
Qed.

(** C9. In an acyclic node map whose edges target no name of
    [Object.prototype], and from a start id that is no such name,
    [findParent] terminates (the fuel [size + 1]
    is enough, and no other fuel gives another answer); its answer is the
    first edge, in depth-first order from the start node - edges in stored
    order, descent only into connected edges - whose target is the sought
    id, and it is null exactly when no edge that the traversal can reach
    targets that id. *)
Theorem findParent_first_in_dfs_order (map : Nodes) (from targetId : string) :
  acyclic map →
  plain_targets map →
  inherited from = false →
  ∃ order,
    dfs_order (S (size map)) from map = Some order ∧
    (∀ owner i tgt, (owner, i, tgt) ∈ order ↔ reachable_edge map from owner i tgt) ∧
    findParent (S (size map)) from targetId map = Some (first_target targetId order) ∧
    (∀ fuel r, findParent fuel from targetId map = Some r →
               r = first_target targetId order) ∧
    (first_target targetId order = None ↔
     ¬ ∃ owner i, reachable_edge map from owner i (Some targetId)).
Proof.
  intros Hacyc _ _.
  destruct (dfs_order_is_Some map (S (size map)) from [] Hacyc) as [order Horder].
  { apply NoDup_nil_2. }
  { by intros a ?%elem_of_nil. }
  { simpl. lia. }
  exists order. split; [done|].
  assert (∀ owner i tgt,
            (owner, i, tgt) ∈ order ↔ reachable_edge map from owner i tgt) as Hiff.
  { intros owner i tgt. split.
    - by eapply dfs_order_sound.
    - by eapply dfs_order_complete. }
  split; [done|]. split; [by apply findParent_dfs_order|]. split.
  - intros fuel r Hr. eapply findParent_deterministic; [done|].
    by apply findParent_dfs_order.
  - rewrite first_target_None. split.
    + intros Hnone (owner & i & Hre). apply Hiff in Hre. by eapply Hnone.
    + intros Hnone p i Hin. apply Hnone. exists p, i. by apply Hiff.
Qed.

(** ** Deletion *)

Section RewireBranch.
Implicit Types (edges adopted : list Edge).



End RewireBranch.

(** The shape of [deleteNode]'s answer once the parent is located. *)
Lemma deleteNode_located fuel prev t p i parent target :
  t ≠ rootId →
  findParent fuel rootId t prev = Some (Some (p, i)) →
  getNode prev p = Some parent → getNode prev t = Some target →
  deleteNode fuel t prev =
  Some (Fresh
    (match node_type parent with
     | action =>
         <[p := Some (with_children parent
             match filter (λ e, is_connected e) (children target) with
             | next :: _ =>
                 [mkEdge (edge_id next)
                    (default "Next" (edge_label <$> children parent !! i))]
             | [] => []
             end)]> (delete t prev)
     | branch =>
         <[p := Some (with_children parent
             (ensureBranchEdges
                (rewire_branch (ensureBranchEdges (children parent)) i
                   (filter (λ e, is_connected e) (children target)))))]>
           (delete t prev)
     | end_ => delete t prev
     end)).
Proof.
  intros Hroot Hfind Hp Ht. unfold deleteNode, deleteNode_updater.
  rewrite decide_False by done. rewrite Hfind, Hp, Ht.
  by destruct (node_type parent).
Qed.

Lemma located_parent_ne fuel (prev : Nodes) t p i :
  t ≠ rootId → findParent fuel rootId t prev = Some (Some (p, i)) → p ≠ t.
Proof.
  intros Hroot [Hpath _]%findParent_sound.
  apply rtc_inv_r in Hpath as [<-|(y & _ & _ & Hne)]; [done|done].
Qed.

Section DeleteReach.
Variables (fuel : nat) (prev : Nodes) (t p : string) (i : nat).
Variables (parent target : WorkflowNode) (kept : list Edge).
Hypothesis Hroot : t ≠ rootId.
Hypothesis Hfind : findParent fuel rootId t prev = Some (Some (p, i)).
Hypothesis Hparent : getNode prev p = Some parent.
Hypothesis Htarget : getNode prev t = Some target.

(** The parent keeps every connection it had besides the one to [t] ... *)
Hypothesis Hkeeps : ∀ e z,
  e ∈ children parent → connected e = Some z → z ≠ t →
  ∃ e', e' ∈ kept ∧ connected e' = Some z.
(** ... and takes over every connection of [t]. *)
Hypothesis Hadopts : ∀ a z,
  a ∈ children target → connected a = Some z →
  ∃ e', e' ∈ kept ∧ connected e' = Some z.

Let next : Nodes := <[p := Some (with_children parent kept)]> (delete t prev).






End DeleteReach.

(** The slot that [findParent] reports is an edge of the parent, it targets
    [t], and no other connection of the parent is to [t]'s slot. *)
Lemma located_slot fuel prev t p i parent :
  findParent fuel rootId t prev = Some (Some (p, i)) →
  getNode prev p = Some parent →
  ∃ slot, children parent !! i = Some slot ∧ edge_id slot = Some t.
Proof.
  intros (_ & n & e & Hn & He & Hid)%findParent_sound Hp.
  rewrite Hp in Hn. injection Hn as <-. by exists e.
Qed.




(** ** The canonical edges in what is written back *)

Lemma has_label_alter_id l x i (edges : list Edge) :
  has_label l (alter (λ e, with_id e x) i edges) = has_label l edges.
Proof.
  unfold has_label. revert i.
  induction edges as [|e rest IH]; intros [|i]; simpl; try done.
  f_equal. apply IH.
Qed.

Lemma ensure_canonical edges : has_canonical (ensureBranchEdges edges).
Proof. split; [apply ensure_has_True | apply ensure_has_False]. Qed.



(** ** Node ids *)

Section NextId.
Implicit Types (map : Nodes).

Lemma digit_pretty_N_char (d : N) : (d < 10)%N → digit (pretty_N_char d) = Some d.
Proof.
  intros Hd.
  assert (d = 0 ∨ d = 1 ∨ d = 2 ∨ d = 3 ∨ d = 4 ∨ d = 5 ∨ d = 6 ∨ d = 7
          ∨ d = 8 ∨ d = 9)%N as Hcases by lia.
  repeat (destruct Hcases as [->|Hcases]; [done|]). by subst.
Qed.

Lemma Number_go_pretty_N_go (x : N) (s : string) :
  Number_go 0 (pretty_N_go x s) = Number_go x s.
Proof.
  revert s. induction (N.lt_wf_0 x) as [x _ IH]. intros s.
  destruct (decide (x = 0)%N) as [->|Hx]; [done|].
  rewrite pretty_N_go_step by lia.
  rewrite IH by (apply N.div_lt; lia). simpl.
  rewrite digit_pretty_N_char by (apply N.mod_lt; lia).
  f_equal. rewrite (N.div_mod x 10) at 3 by lia. lia.
Qed.

Lemma Number_pretty (x : N) : Number (pretty x) = Some x.
Proof.
  unfold Number, pretty, pretty_N. destruct (decide (x = 0)%N) as [->|]; [done|].
  by rewrite Number_go_pretty_N_go.
Qed.

Lemma Number_nextId_key (x : N) :
  Number (replace_first "node-" ("node-" +:+ pretty x)) = Some x.
Proof. simpl. apply Number_pretty. Qed.

Lemma maxId_upper map k v n :
  map !! k = Some v → Number (replace_first "node-" k) = Some n →
  (n ≤ maxId map)%N.
Proof.
  intros Hk Hn. apply elem_of_map_to_list in Hk. unfold maxId.
  induction (map_to_list map) as [|[k' v'] rest IH]; [by apply elem_of_nil in Hk|].
  simpl. apply elem_of_cons in Hk as [[= <- <-]|Hin].
  - unfold maxId_step. simpl. rewrite Hn. lia.
  - specialize (IH Hin). unfold maxId_step at 1. simpl.
    destruct (Number (replace_first "node-" k')); lia.
Qed.

(** [maxId] is [0] or the number of one of the keys. *)
Lemma maxId_attained (map : Nodes) :
  maxId map = 0%N ∨
  ∃ k v, map !! k = Some v ∧ Number (replace_first "node-" k) = Some (maxId map).
Proof.
  unfold maxId.
  assert (∀ kv, kv ∈ map_to_list map → map !! kv.1 = Some kv.2) as Hall.
  { intros [k v] Hin. by apply elem_of_map_to_list. }
  induction (map_to_list map) as [|[k v] rest IH]; [by left|].
  change (foldr maxId_step 0%N ((k, v) :: rest))
    with (maxId_step (k, v) (foldr maxId_step 0%N rest)).
  unfold maxId_step at 1 3.
  change ((k, v).1) with k.
  destruct (Number (replace_first "node-" k)) as [num|] eqn:Hnum.
  - destruct (N.max_spec (foldr maxId_step 0%N rest) num) as [[_ ->]|[_ ->]].
    + right. exists k, v. split; [|done]. apply (Hall (k, v)). by left.
    + apply IH. intros kv Hkv. apply Hall. by right.
  - apply IH. intros kv Hkv. apply Hall. by right.
Qed.

(** The id handed out is not a key of the map, and never the root's. *)
Lemma nextId_fresh map : map !! nextId map = None.
Proof.
  destruct (map !! nextId map) as [v|] eqn:Hk; [|done].
  pose proof (maxId_upper _ _ _ _ Hk (Number_nextId_key _)). lia.
Qed.

Lemma nextId_not_root map : nextId map ≠ rootId.
Proof.
  unfold nextId, rootId. intros [= H].
  change ("" +:+ pretty (maxId map + 1)%N) with (pretty (maxId map + 1)%N) in H.
  change "0" with (pretty 0%N) in H. apply (inj (pretty : N → string)) in H. lia.
Qed.
End NextId.

(** ** Insertion *)

Lemma attachExistingChild_connected newId kind o s :
  truthy_opt o = Some s →
  attachExistingChild (createNode newId kind) o =
  mkNode newId
    (match kind with action => "Action" | branch => "Branch" | end_ => "End" end)
    kind
    (match kind with
     | action => [mkEdge (Some s) "Next"]
     | branch => [mkEdge (Some s) "True"; mkEdge None "False"]
     | end_ => []
     end).
Proof.
  intros Hc. unfold attachExistingChild. rewrite Hc. by destruct kind.
Qed.

Lemma attachExistingChild_unconnected newId kind o :
  truthy_opt o = None →
  attachExistingChild (createNode newId kind) o = createNode newId kind.
Proof. intros Hc. unfold attachExistingChild. by rewrite Hc. Qed.

(** C2 (amended). In a map whose keys the counter counts exactly
    ([counted_keys]), under an Action parent [p] whose first edge is connected
    to [S], Insert creates a node under an id that was not a key, rewrites
    [p]'s edges to the single edge "Next" to the new node, and leaves all
    other nodes alone; a new Action or Branch node has [S] as the target of
    its first edge (an Action: its "Next" edge; a Branch: its "True" edge,
    "False" left unconnected), whereas a new End node is stored without
    edges. *)
Theorem addNode_under_action
    (prev : Nodes) (p : string) (parent : WorkflowNode) (e : Edge) (S : string)
    (branchLabel : option string) (kind : NodeType) :
  counted_keys prev →
  getNode prev p = Some parent →
  node_type parent = action →
  children parent !! 0 = Some e →
  connected e = Some S →
  ∃ next inserted,
    addNode p branchLabel kind (nextId prev) prev = Fresh next ∧
    prev !! nextId prev = None ∧
    getNode next p =
      Some (with_children parent [mkEdge (Some (nextId prev)) "Next"]) ∧
    getNode next (nextId prev) = Some inserted ∧
    node_id inserted = nextId prev ∧ node_type inserted = kind ∧
    children inserted =
      match kind with
      | action => [mkEdge (Some S) "Next"]
      | branch => [mkEdge (Some S) "True"; mkEdge None "False"]
      | end_ => []
      end ∧
    (kind ≠ end_ →
     ∃ first, children inserted !! 0 = Some first ∧ connected first = Some S) ∧
    (∀ k, k ≠ p → k ≠ nextId prev → next !! k = prev !! k).
Proof.
  intros _ Hp Haction He HS.
  pose proof (nextId_fresh prev) as Hfresh.
  assert (nextId prev ≠ p) as Hne.
  { intros Heq. apply getNode_Some in Hp. rewrite Heq in Hfresh. congruence. }
  unfold addNode. rewrite Hp, Haction.
  assert (head (children parent) ≫= edge_id = edge_id e) as ->.
  { destruct (children parent); [done|]. simpl in *. by injection He as ->. }
  rewrite (attachExistingChild_connected _ _ _ S) by done.
  eexists _, _. split; [done|]. split; [done|].
  split; [by rewrite getNode_insert|].
  split; [by rewrite getNode_insert_ne, getNode_insert|].
  split; [done|]. split; [done|]. split; [done|]. split.
  - intros Hkind. destruct kind; [| |done]; eexists; (split; [done|]); simpl.
    + apply connected_Some in HS as [_ HS]. by apply connected_intro.
    + apply connected_Some in HS as [_ HS]. by apply connected_intro.
  - intros k Hkp Hkn. by rewrite !lookup_insert_ne.
Qed.

(** ** Insertion followed by deletion *)

Section RoundTrip.
Implicit Types (edges : list Edge).

Lemma truthy_opt_Some o s : truthy_opt o = Some s → o = Some s ∧ truthy s = true.
Proof.
  unfold truthy_opt. destruct o as [x|]; [|done].
  destruct (truthy x) eqn:Hx; [|done]. by intros [= <-].
Qed.


Lemma connected_truthy (e : Edge) s :
  edge_id e = Some s → truthy s = true → connected e = Some s.
Proof. intros He Hs. unfold connected. rewrite He. simpl. by rewrite Hs. Qed.

Lemma omap_connected_blank (extra : list Edge) :
  Forall canonical_blank extra → omap connected extra = [].
Proof.
  induction 1 as [|e rest He _ IH]; [done|]. simpl.
  by rewrite (canonical_blank_unconnected _ He).
Qed.

Lemma omap_connected_ensure edges :
  omap connected (ensureBranchEdges edges) = omap connected edges.
Proof.
  destruct (ensure_appends edges) as (extra & -> & Hex).
  rewrite omap_app, (omap_connected_blank extra Hex). apply app_nil_r.
Qed.


End RoundTrip.

(** Where [addNode] wrote: the parent's slot and the node stored under the
    new id. *)
Lemma addNode_shape p bl kind newId prev parent next :
  getNode prev p = Some parent →
  addNode p bl kind newId prev = Fresh next →
  ∃ slot o parent1,
    next = <[p := Some parent1]>
             (<[newId := Some (attachExistingChild (createNode newId kind) o)]> prev) ∧
    node_type parent1 = node_type parent ∧
    node_type parent ≠ end_ ∧
    (node_type parent = action →
       slot = 0 ∧ o = head (children parent) ≫= edge_id ∧
       children parent1 = [mkEdge (Some newId) "Next"]) ∧
    (node_type parent = branch →
       o = ensureBranchEdges (children parent) !! slot ≫= edge_id ∧
       slot < length (ensureBranchEdges (children parent)) ∧
       children parent1 =
         alter (λ e, with_id e (Some newId)) slot (ensureBranchEdges (children parent))) ∧
    parent1 = with_children parent (children parent1).
Proof.
  intros Hp. unfold addNode. rewrite Hp.
  destruct (node_type parent) eqn:Hty; [| |done].
  - intros [= <-]. eexists 0, _, _. split; [done|]. split; [done|].
    split; [done|]. split; [done|]. done.
  - intros [= <-].
    set (E := ensureBranchEdges (children parent)).
    set (ti := default 0 match truthy_opt bl with
                         | Some l => findIndex l E
                         | None => Some 0
                         end).
    exists ti, (E !! ti ≫= edge_id), (with_children parent
      (alter (λ e, with_id e (Some newId)) ti E)).
    split; [done|]. split; [done|]. split; [done|]. split; [done|].
    split; [|done].
    intros _. split; [done|]. split; [|done].
    pose proof (ensure_length (children parent)) as Hlen. fold E in Hlen.
    unfold ti. destruct (truthy_opt bl) as [l|]; simpl; [|lia].
    destruct (findIndex l E) as [k|] eqn:Hk; simpl; [|lia].
    clear -Hk. revert k Hk. induction E as [|e rest IH]; intros k; simpl; [done|].
    destruct (decide (edge_label e = l)).
    + intros [= <-]. lia.
    + destruct (findIndex l rest) as [k'|]; [|done]. simpl.
      intros [= <-]. specialize (IH k' eq_refl). lia.
Qed.



(** ** Snapshots *)

Section Clone.
Implicit Types (map : Nodes).

Lemma clone_node_id (n : WorkflowNode) : clone_node n = n.
Proof.
  destruct n as [i l t c]. unfold clone_node. simpl. f_equal.
  induction c as [|[x y] c IH]; [done|]. rewrite fmap_cons. by rewrite IH.
Qed.

Lemma clone_fold (l : list (string * option WorkflowNode)) c :
  foldr clone_step (Some ∅) l = Some c →
  Forall (λ kv, is_Some kv.2) l ∧
  ((∀ k n, (k, Some n) ∈ l → node_id n = k) → c = list_to_map l).
Proof.
  revert c. induction l as [|[k v] l IH]; intros c; simpl.
  - intros [= <-]. split; [done|]. done.
  - unfold clone_step at 1. simpl.
    destruct (foldr clone_step (Some ∅) l) as [acc|] eqn:Hacc; [|done].
    destruct v as [n|]; [|done]. intros [= <-].
    destruct (IH acc eq_refl) as [Hall Hmap]. split.
    + apply Forall_cons. split; [by eexists|done].
    + intros Hcoh. rewrite clone_node_id, (Hcoh k n) by (by left).
      f_equal. apply Hmap. intros k' n' Hin. apply Hcoh. by right.
Qed.

Lemma clone_fold_defined (l : list (string * option WorkflowNode)) :
  Forall (λ kv, is_Some kv.2) l → is_Some (foldr clone_step (Some ∅) l).
Proof.
  induction 1 as [|[k v] l [n Hn] _ [acc IH]]; simpl; [done|].
  rewrite IH. simpl in Hn. subst v. done.
Qed.

(** A snapshot of a coherent map is the map itself, and can be taken
    exactly when no key is bound to [undefined]. *)
Lemma cloneNodes_coherent map c :
  coherent map → cloneNodes map = Some c → c = map ∧ all_defined map.
Proof.
  intros Hcoh Hc. destruct (clone_fold _ _ Hc) as [Hall Hmap]. split.
  - rewrite Hmap; [apply list_to_map_to_list|].
    intros k n Hin. apply Hcoh. by apply elem_of_map_to_list.
  - intros k v Hk. apply elem_of_map_to_list in Hk.
    rewrite Forall_forall in Hall. by apply (Hall (k, v)).
Qed.

Lemma cloneNodes_defined map :
  coherent map → all_defined map → cloneNodes map = Some map.
Proof.
  intros Hcoh Hdef.
  destruct (clone_fold_defined (map_to_list map)) as [c Hc].
  { apply Forall_forall. intros [k v] Hin. apply elem_of_map_to_list in Hin.
    by eapply Hdef. }
  unfold cloneNodes. rewrite Hc. f_equal.
  by destruct (cloneNodes_coherent map c Hcoh Hc).
Qed.

Lemma cloneNodes_undefined map k :
  map !! k = Some None → cloneNodes map = None.
Proof.
  intros Hk. destruct (cloneNodes map) as [c|] eqn:Hc; [|done].
  destruct (clone_fold _ _ Hc) as [Hall _].
  rewrite Forall_forall in Hall.
  apply elem_of_map_to_list in Hk. by destruct (Hall _ Hk).
Qed.
End Clone.

(** ** The invariants along a run *)

Section Invariants.
Implicit Types (map prev next : Nodes) (st : AppState).

Lemma graph_ok_insert prev k n :
  graph_ok prev → node_id n = k → (k = rootId → node_type n = action) →
  graph_ok (<[k := Some n]> prev).
Proof.
  intros [(r & Hr & Hra) Hcoh] Hid Hroot. split.
  - destruct (decide (k = rootId)) as [->|Hk].
    + exists n. rewrite lookup_insert_eq. by split; [|apply Hroot].
    + exists r. by rewrite lookup_insert_ne.
  - intros k' n'. rewrite lookup_insert. case_decide as Hk.
    + intros [= <-]. by subst.
    + apply Hcoh.
Qed.

Lemma graph_ok_insert_undefined prev k :
  graph_ok prev → getNode prev k = None → graph_ok (<[k := None]> prev).
Proof.
  intros [(r & Hr & Hra) Hcoh] Hk. split.
  - exists r. rewrite lookup_insert_ne; [done|]. intros ->.
    unfold getNode in Hk. by rewrite Hr in Hk.
  - intros k' n'. rewrite lookup_insert. case_decide; [done|]. apply Hcoh.
Qed.

Lemma graph_ok_delete prev t :
  t ≠ rootId → graph_ok prev → graph_ok (delete t prev).
Proof.
  intros Ht [(r & Hr & Hra) Hcoh]. split.
  - exists r. by rewrite lookup_delete_ne.
  - intros k n. rewrite lookup_delete. case_decide; [done|]. apply Hcoh.
Qed.

Lemma graph_ok_rewrite prev k n c :
  graph_ok prev → getNode prev k = Some n →
  graph_ok (<[k := Some (with_children n c)]> prev).
Proof.
  intros Hok Hn. apply getNode_Some in Hn.
  apply graph_ok_insert; [done| |].
  - simpl. by apply Hok.
  - intros ->. destruct Hok as [(r & Hr & Hra) _]. simpl. congruence.
Qed.

Lemma attachExistingChild_id n o : node_id (attachExistingChild n o) = node_id n.
Proof.
  unfold attachExistingChild. destruct (truthy_opt o); [|done].
  by destruct (node_type n).
Qed.

Lemma createNode_id k kind : node_id (createNode k kind) = k.
Proof. by destruct kind. Qed.

Lemma addNode_ok p bl kind prev next :
  graph_ok prev → addNode p bl kind (nextId prev) prev = Fresh next →
  graph_ok next.
Proof.
  intros Hok Hadd.
  destruct (getNode prev p) as [parent|] eqn:Hp;
    [|by unfold addNode in Hadd; rewrite Hp in Hadd].
  destruct (addNode_shape _ _ _ _ _ _ _ Hp Hadd)
    as (slot & o & parent1 & -> & _ & _ & _ & _ & ->).
  apply graph_ok_rewrite.
  - apply graph_ok_insert; [done| |].
    + by rewrite attachExistingChild_id, createNode_id.
    + intros H. by apply nextId_not_root in H.
  - rewrite getNode_insert_ne; [done|]. intros Heq.
    pose proof (nextId_fresh prev) as Hf. apply getNode_Some in Hp.
    rewrite Heq in Hf. congruence.
Qed.

Lemma deleteNode_updater_ok fuel t prev next :
  t ≠ rootId → graph_ok prev →
  deleteNode_updater fuel t prev = Some (Fresh next) → graph_ok next.
Proof.
  intros Ht Hok. unfold deleteNode_updater.
  destruct (findParent fuel rootId t prev) as [[[p i]|]|] eqn:Hfind; [|done|done].
  destruct (getNode prev p) as [parent|] eqn:Hp; [|done].
  destruct (getNode prev t) as [target|] eqn:Htg; [|done].
  assert (p ≠ t) as Hpt by (by eapply located_parent_ne).
  assert (getNode (delete t prev) p = Some parent) as Hp'
    by (by rewrite getNode_delete_ne).
  pose proof (graph_ok_delete prev t Ht Hok) as Hdel.
  destruct (node_type parent); intros [= <-]; [| |done];
    by apply graph_ok_rewrite.
Qed.

Lemma addBranchPath_ok nodeId prev next :
  graph_ok prev → addBranchPath nodeId prev = Fresh next → graph_ok next.
Proof.
  intros Hok. unfold addBranchPath.
  destruct (getNode prev nodeId) as [node|] eqn:Hn; [|done].
  case_decide; [|done]. intros [= <-]. by apply graph_ok_rewrite.
Qed.

Lemma updateLabel_ok id label prev :
  graph_ok prev → graph_ok (updateLabel id label prev).
Proof.
  intros Hok. unfold updateLabel.
  destruct (getNode prev id) as [n|] eqn:Hn.
  - apply getNode_Some in Hn. apply graph_ok_insert; [done| |].
    + simpl. by apply Hok.
    + intros ->. destruct Hok as [(r & Hr & Hra) _]. simpl. congruence.
  - by apply graph_ok_insert_undefined.
Qed.
End Invariants.

Section StateInvariant.
Implicit Types (st : AppState) (op : Op).

Lemma state_ok_graph st : state_ok st → graph_ok (nodes st).
Proof. intros (? & ? & _). by split. Qed.

(** What [applyChange] does with a new graph when it tracks history. *)
Lemma applyChange_commit (updater : Nodes → option Outcome) st next :
  updater (nodes st) = Some (Fresh next) →
  applyChange updater true st =
  match cloneNodes next with
  | Some snapshot =>
      Some (mkState next
              (take (historyIndex st + 1) (history st) ++ [snapshot])
              (historyIndex st + 1))
  | None => None
  end.
Proof. intros H. unfold applyChange. by rewrite H. Qed.

Lemma applyChange_same (updater : Nodes → option Outcome) track st :
  updater (nodes st) = Some SameRef → applyChange updater track st = Some st.
Proof. intros H. unfold applyChange. by rewrite H. Qed.

Lemma applyChange_ok (updater : Nodes → option Outcome) st st' :
  state_ok st →
  (∀ next, updater (nodes st) = Some (Fresh next) → graph_ok next) →
  applyChange updater true st = Some st' → state_ok st'.
Proof.
  intros Hst Hupd. destruct (updater (nodes st)) as [[|next]|] eqn:Hu.
  - rewrite applyChange_same by done. by intros [= <-].
  - rewrite (applyChange_commit _ _ _ Hu).
    destruct (Hupd next eq_refl) as [Hroot Hcoh].
    destruct (cloneNodes next) as [snap|] eqn:Hc; [|done]. intros [= <-].
    destruct (cloneNodes_coherent _ _ Hcoh Hc) as [-> Hdef].
    destruct Hst as (_ & _ & Hhist & Hidx).
    split; [done|]. split; [done|]. simpl. split.
    + apply Forall_app. split; [by apply Forall_take|].
      by apply Forall_singleton.
    + rewrite length_app, length_take. simpl. lia.
  - unfold applyChange. by rewrite Hu.
Qed.

Lemma restore_ok i st st' :
  state_ok st → restore i st = Some st' →
  state_ok st' ∧ history st' = history st ∧ historyIndex st' = i ∧
  history st !! i = Some (nodes st').
Proof.
  intros (_ & _ & Hhist & _). unfold restore.
  destruct (history st !! i) as [h|] eqn:Hi; [|done].
  pose proof (Forall_lookup_1 _ _ _ _ Hhist Hi) as (Hroot & Hcoh & Hdef).
  rewrite (cloneNodes_defined h Hcoh Hdef). intros [= <-]. simpl.
  split; [|done]. split; [done|]. split; [done|]. split; [done|].
  by eapply lookup_lt_Some.
Qed.

Lemma step_ok fuel st op st' :
  state_ok st → step fuel st op = Some st' → state_ok st'.
Proof.
  intros Hst. pose proof (state_ok_graph st Hst) as Hg.
  destruct op as [p bl kind|t|id label|nodeId| |]; simpl.
  - apply applyChange_ok; [done|]. intros next [= H]. by eapply addNode_ok.
  - case_decide as Ht; [by intros [= <-]|].
    apply applyChange_ok; [done|]. intros next H.
    by eapply deleteNode_updater_ok.
  - intros [= <-]. destruct Hst as (_ & _ & Hhist & Hidx).
    destruct (updateLabel_ok id label _ Hg). by repeat split.
  - apply applyChange_ok; [done|]. intros next [= H]. by eapply addBranchPath_ok.
  - unfold undo. case_decide; [by intros [= <-]|].
    intros Hr. by apply (restore_ok _ _ _ Hst) in Hr as [? _].
  - unfold redo. case_decide; [by intros [= <-]|].
    intros Hr. by apply (restore_ok _ _ _ Hst) in Hr as [? _].
Qed.

Lemma run_ok st ops st' :
  state_ok st → run st ops = Some st' → state_ok st'.
Proof.
  revert st. induction ops as [|[fuel op] ops IH]; intros st Hst; simpl.
  - by intros [= <-].
  - destruct (step fuel st op) as [st1|] eqn:Hstep; [|done].
    apply IH. by eapply step_ok.
Qed.

Lemma initState_default :
  initState defaultGraph = Some (mkState defaultGraph [defaultGraph] 0).
Proof. reflexivity. Qed.

Lemma defaultGraph_ok : snapshot_ok defaultGraph.
Proof.
  unfold defaultGraph. split; [|split].
  - eexists. by rewrite lookup_singleton_eq.
  - intros k n [<- [= <-]]%lookup_singleton_Some. done.
  - intros k v [<- <-]%lookup_singleton_Some. done.
Qed.

Lemma initState_default_ok st0 :
  initState defaultGraph = Some st0 → state_ok st0.
Proof.
  rewrite initState_default. intros [= <-].
  destruct defaultGraph_ok as (Hroot & Hcoh & Hdef).
  split; [done|]. split; [done|]. simpl. split; [|lia].
  by apply Forall_singleton.
Qed.
End StateInvariant.

(** C8. In every state reached from the default graph by any sequence of
    insert, delete, updateLabel, addBranchPath, undo and redo, the root id
    is a key of the node map and the node stored there is an Action. *)
Theorem root_stays_action (st0 st : AppState) (ops : list (nat * Op)) :
  initState defaultGraph = Some st0 →
  run st0 ops = Some st →
  ∃ n, nodes st !! rootId = Some (Some n) ∧ node_type n = action.
Proof.
  intros Hinit Hrun.
  apply initState_default_ok in Hinit.
  by destruct (run_ok _ _ _ Hinit Hrun) as [Hroot _].
Qed.

(** ** The node shapes of the data model along a run *)

Section Shapes.
Implicit Types (map prev next : Nodes) (st : AppState).

Lemma shaped_insert prev k n :
  shaped prev → node_shaped n → shaped (<[k := Some n]> prev).
Proof.
  intros Hs Hn k' n'. destruct (decide (k = k')) as [<-|Hne].
  - rewrite getNode_insert. by intros [= <-].
  - rewrite getNode_insert_ne by done. apply Hs.
Qed.

Lemma shaped_insert_undefined prev k : shaped prev → shaped (<[k := None]> prev).
Proof.
  intros Hs k' n'. destruct (decide (k = k')) as [<-|Hne].
  - by rewrite getNode_insert.
  - rewrite getNode_insert_ne by done. apply Hs.
Qed.

Lemma shaped_delete prev t : shaped prev → shaped (delete t prev).
Proof.
  intros Hs k n. destruct (decide (t = k)) as [<-|Hne].
  - by rewrite getNode_delete.
  - rewrite getNode_delete_ne by done. apply Hs.
Qed.

Lemma alter_canonical x i (edges : list Edge) :
  has_canonical edges → has_canonical (alter (λ e, with_id e x) i edges).
Proof. unfold has_canonical. by rewrite !has_label_alter_id. Qed.

Lemma attachExistingChild_shaped newId kind o :
  node_shaped (attachExistingChild (createNode newId kind) o).
Proof.
  unfold attachExistingChild. destruct (truthy_opt o) as [c|].
  - destruct kind; unfold node_shaped; simpl; [lia|by split|done].
  - destruct kind; unfold node_shaped; simpl; [lia|by split|done].
Qed.

Lemma addNode_shaped p bl kind newId prev next :
  shaped prev → addNode p bl kind newId prev = Fresh next → shaped next.
Proof.
  intros Hs Hadd.
  destruct (getNode prev p) as [parent|] eqn:Hp;
    [|by unfold addNode in Hadd; rewrite Hp in Hadd].
  destruct (addNode_shape _ _ _ _ _ _ _ Hp Hadd)
    as (slot & o & parent1 & -> & Hty & Hnend & Hact & Hbr & Hp1).
  apply shaped_insert; [apply shaped_insert; [done|]|].
  - apply attachExistingChild_shaped.
  - unfold node_shaped. rewrite Hty. destruct (node_type parent) eqn:Hk; [| |done].
    + destruct (Hact eq_refl) as (_ & _ & ->). simpl. lia.
    + destruct (Hbr eq_refl) as (_ & _ & ->).
      apply alter_canonical, ensure_canonical.
Qed.

Lemma deleteNode_updater_shaped fuel t prev next :
  shaped prev → deleteNode_updater fuel t prev = Some (Fresh next) → shaped next.
Proof.
  intros Hs. unfold deleteNode_updater.
  destruct (findParent fuel rootId t prev) as [[[p i]|]|]; [|done|done].
  destruct (getNode prev p) as [parent|] eqn:Hp; [|done].
  destruct (getNode prev t) as [target|]; [|done].
  pose proof (shaped_delete prev t Hs) as Hd.
  destruct (node_type parent) eqn:Hk; intros [= <-]; [| |done].
  - apply shaped_insert; [done|]. unfold node_shaped. simpl. rewrite Hk.
    destruct (filter _ _); simpl; lia.
  - apply shaped_insert; [done|]. unfold node_shaped. simpl. rewrite Hk.
    apply ensure_canonical.
Qed.

Lemma addBranchPath_shaped nodeId prev next :
  shaped prev → addBranchPath nodeId prev = Fresh next → shaped next.
Proof.
  intros Hs. unfold addBranchPath.
  destruct (getNode prev nodeId) as [node|] eqn:Hn; [|done].
  case_decide as Hk; [|done]. intros [= <-].
  apply shaped_insert; [done|]. unfold node_shaped. simpl. rewrite Hk.
  pose proof (Hs _ _ Hn) as Hc. unfold node_shaped in Hc. rewrite Hk in Hc.
  destruct Hc as [HT HF]. split; rewrite has_label_app; [by rewrite HT|by rewrite HF].
Qed.

Lemma updateLabel_shaped id label prev :
  shaped prev → shaped (updateLabel id label prev).
Proof.
  intros Hs. unfold updateLabel.
  destruct (getNode prev id) as [n|] eqn:Hn.
  - apply shaped_insert; [done|]. apply (Hs _ _ Hn).
  - by apply shaped_insert_undefined.
Qed.

Lemma applyChange_shaped (updater : Nodes → option Outcome) st st' :
  state_ok st → state_shaped st →
  (∀ next, updater (nodes st) = Some (Fresh next) → graph_ok next ∧ shaped next) →
  applyChange updater true st = Some st' → state_shaped st'.
Proof.
  intros Hok [Hs Hh] Hupd. destruct (updater (nodes st)) as [[|next]|] eqn:Hu.
  - rewrite applyChange_same by done. by intros [= <-].
  - rewrite (applyChange_commit _ _ _ Hu).
    destruct (Hupd next eq_refl) as [[_ Hcoh] Hsn].
    destruct (cloneNodes next) as [snap|] eqn:Hc; [|done]. intros [= <-].
    destruct (cloneNodes_coherent _ _ Hcoh Hc) as [-> _].
    split; [done|]. simpl. apply Forall_app. split; [by apply Forall_take|].
    by apply Forall_singleton.
  - unfold applyChange. by rewrite Hu.
Qed.

Lemma step_shaped fuel st op st' :
  state_ok st → state_shaped st → step fuel st op = Some st' → state_shaped st'.
Proof.
  intros Hok Hsh. pose proof (state_ok_graph st Hok) as Hg.
  pose proof Hsh as [Hs Hh].
  assert (∀ i, restore i st = Some st' → state_shaped st') as Hrestore.
  { intros i Hr. destruct (restore_ok _ _ _ Hok Hr) as (_ & Hh' & _ & Hn).
    split; [|by rewrite Hh'].
    rewrite Forall_lookup in Hh. by apply (Hh i). }
  destruct op as [p bl kind|t|id label|nodeId| |]; simpl.
  - apply applyChange_shaped; [done..|]. intros next [= H].
    split; [by eapply addNode_ok|by eapply addNode_shaped].
  - case_decide as Ht; [by intros [= <-]|].
    apply applyChange_shaped; [done..|]. intros next H.
    split; [by eapply deleteNode_updater_ok|by eapply deleteNode_updater_shaped].
  - intros [= <-]. split; [by apply updateLabel_shaped|done].
  - apply applyChange_shaped; [done..|]. intros next [= H].
    split; [by eapply addBranchPath_ok|by eapply addBranchPath_shaped].
  - unfold undo. case_decide; [by intros [= <-]|]. apply Hrestore.
  - unfold redo. case_decide; [by intros [= <-]|]. apply Hrestore.
Qed.

Lemma run_state_shaped st ops st' :
  state_ok st → state_shaped st → run st ops = Some st' → state_shaped st'.
Proof.
  revert st. induction ops as [|[fuel op] ops IH]; intros st Hok Hsh; simpl.
  - by intros [= <-].
  - destruct (step fuel st op) as [s1|] eqn:Hstep; [|done].
    apply IH; [by eapply step_ok|by eapply step_shaped].
Qed.

(** In every state reached from the default graph each stored node has the
    shape of its kind. *)
Lemma run_shaped st0 ops st :
  initState defaultGraph = Some st0 → run st0 ops = Some st →
  shaped (nodes st).
Proof.
  intros Hinit Hrun. pose proof (initState_default_ok _ Hinit) as Hok0.
  rewrite initState_default in Hinit. injection Hinit as <-.
  assert (state_shaped (mkState defaultGraph [defaultGraph] 0)) as Hsh0.
  { assert (shaped defaultGraph) as Hd.
    { intros k n Hk%getNode_Some. unfold defaultGraph in Hk.
      apply lookup_singleton_Some in Hk as [<- [= <-]].
      unfold node_shaped. simpl. lia. }
    split; [done|]. by apply Forall_singleton. }
  by destruct (run_state_shaped _ _ _ Hok0 Hsh0 Hrun).
Qed.
End Shapes.

(** ** History *)

Section History.
Implicit Types (st : AppState) (op : Op).

(** A trackable operation either commits or leaves the state as it is. *)
Lemma step_trackable fuel st op st' :
  trackable op = true → step fuel st op = Some st' →
  (commits_here fuel st op = true ∧
   ∃ snapshot,
     cloneNodes (nodes st') = Some snapshot ∧
     history st' = take (historyIndex st + 1) (history st) ++ [snapshot] ∧
     historyIndex st' = historyIndex st + 1) ∨
  (commits_here fuel st op = false ∧ st' = st).
Proof.
  assert (∀ (updater : Nodes → option Outcome),
    applyChange updater true st = Some st' →
    (∃ next snapshot, updater (nodes st) = Some (Fresh next) ∧
       cloneNodes (nodes st') = Some snapshot ∧
       history st' = take (historyIndex st + 1) (history st) ++ [snapshot] ∧
       historyIndex st' = historyIndex st + 1) ∨
    (updater (nodes st) = Some SameRef ∧ st' = st)) as Happly.
  { intros updater. unfold applyChange.
    destruct (updater (nodes st)) as [[|next]|]; [| |done].
    - intros [= <-]. by right.
    - destruct (cloneNodes next) as [snap|] eqn:Hc; [|done].
      intros [= <-]. left. by exists next, snap. }
  destruct op as [p bl kind|t|id label|nodeId| |]; simpl; try done; intros _.
  - intros [(next & snap & [= ->] & H)|[[= ->] ->]]%Happly; [left|by right].
    split; [done|]. by exists snap.
  - unfold deleteNode. case_decide as Ht; [intros [= <-]; by right|].
    intros [(next & snap & -> & H)|[-> ->]]%Happly; [left|by right].
    split; [done|]. by exists snap.
  - intros [(next & snap & [= ->] & H)|[[= ->] ->]]%Happly; [left|by right].
    split; [done|]. by exists snap.
Qed.

(** Undo from a sound state, as often as the cursor is high, ends at the
    first history entry. *)
Lemma undo_to_start st fuel :
  state_ok st →
  ∃ st', run st (replicate (historyIndex st) (fuel, Undo)) = Some st' ∧
         history st' = history st ∧ historyIndex st' = 0 ∧
         (0 < historyIndex st → history st !! 0 = Some (nodes st')).
Proof.
  remember (historyIndex st) as k eqn:Hk. revert st Hk.
  induction k as [|k IH]; intros st Hk Hst; simpl.
  - exists st. repeat split; [done|lia].
  - unfold undo. rewrite decide_False by lia.
    replace (historyIndex st - 1) with k by lia.
    assert (is_Some (restore k st)) as [st1 H1].
    { unfold restore. destruct Hst as (_ & _ & Hhist & Hidx).
      destruct (lookup_lt_is_Some_2 (history st) k) as [h Hh]; [lia|].
      rewrite Hh.
      pose proof (Forall_lookup_1 _ _ _ _ Hhist Hh) as (_ & Hcoh & Hdef).
      by rewrite (cloneNodes_defined h Hcoh Hdef). }
    rewrite H1.
    destruct (restore_ok _ _ _ Hst H1) as (Hst1 & Hh1 & Hi1 & Hn1).
    destruct (IH st1 (eq_sym Hi1) Hst1) as (st' & Hrun & Hh' & Hi' & Hn').
    exists st'. rewrite Hrun. split; [done|]. split; [congruence|].
    split; [done|]. intros _.
    destruct k as [|k].
    + simpl in Hrun. injection Hrun as <-. done.
    + rewrite <- Hh1. apply Hn'. lia.
Qed.

End History.


(** ** Deciding reachability questions *)

Section Checks.
Implicit Types (map : Nodes).

Lemma rank_decreases_step rank map a b :
  rank_decreases rank map = true → edge_step map a b → rank b < rank a.
Proof.
  unfold rank_decreases. rewrite forallb_forall.
  intros Hall (n & e & Hn & Hin & Hc).
  apply getNode_Some, elem_of_map_to_list, list_elem_of_In in Hn.
  specialize (Hall _ Hn). simpl in Hall. rewrite forallb_forall in Hall.
  apply list_elem_of_In in Hin. specialize (Hall _ Hin). rewrite Hc in Hall.
  by apply bool_decide_eq_true in Hall.
Qed.

Lemma rank_decreases_acyclic rank map :
  rank_decreases rank map = true → acyclic map.
Proof.
  intros Hrank a Hcyc.
  assert (∀ x y, tc (edge_step map) x y → rank y < rank x) as Hlt.
  { intros x y Hxy. induction Hxy as [x y Hs|x y z Hs _ IH].
    - by eapply rank_decreases_step.
    - pose proof (rank_decreases_step _ _ _ _ Hrank Hs). lia. }
  specialize (Hlt a a Hcyc). lia.
Qed.

Lemma closed_under_reachable ids map u :
  rootId ∈ ids → closed_under ids map = true → reachable map u → u ∈ ids.
Proof.
  intros Hroot Hclosed Hreach. unfold reachable in Hreach.
  refine (rtc_ind_r (λ u, u ∈ ids) rootId Hroot _ u Hreach).
  clear u Hreach. intros y z _ (n & e & Hn & Hin & Hc) Hy.
  unfold closed_under in Hclosed. rewrite forallb_forall in Hclosed.
  apply list_elem_of_In in Hy. specialize (Hclosed _ Hy). simpl in Hclosed.
  rewrite Hn, forallb_forall in Hclosed.
  apply list_elem_of_In in Hin. specialize (Hclosed _ Hin). rewrite Hc in Hclosed.
  by apply bool_decide_eq_true in Hclosed.
Qed.

Lemma no_edge_to_unreferenced id map :
  no_edge_to id map = true → unreferenced map id.
Proof.
  unfold no_edge_to. rewrite forallb_forall. intros Hall k n e Hn Hin.
  apply getNode_Some, elem_of_map_to_list, list_elem_of_In in Hn.
  specialize (Hall _ Hn). simpl in Hall. rewrite forallb_forall in Hall.
  apply list_elem_of_In in Hin. specialize (Hall _ Hin).
  by apply bool_decide_eq_true in Hall.
Qed.

Lemma reachable_step map a i b :
  reachable map a →
  (getNode map a ≫= λ n, children n !! i ≫= connected) = Some b →
  reachable map b.
Proof.
  intros Ha Hb. destruct (getNode map a) as [n|] eqn:Hn; [|done]. simpl in Hb.
  destruct (children n !! i) as [e|] eqn:He; [|done]. simpl in Hb.
  eapply rtc_r; [exact Ha|]. exists n, e.
  split; [done|]. split; [by eapply list_elem_of_lookup_2|done].
Qed.
Lemma plain_targets_checked map :
  plain_targets_check map = true → plain_targets map.
Proof.
  unfold plain_targets_check. rewrite forallb_forall. intros Hall k n e Hn Hin.
  apply getNode_Some, elem_of_map_to_list, list_elem_of_In in Hn.
  specialize (Hall _ Hn). simpl in Hall. rewrite forallb_forall in Hall.
  apply list_elem_of_In in Hin. by apply Hall.
Qed.

Lemma counted_keys_checked map :
  counted_keys_check map = true → counted_keys map.
Proof.
  unfold counted_keys_check. rewrite forallb_forall. intros Hall k v Hk.
  apply elem_of_map_to_list, list_elem_of_In in Hk. by apply (Hall (k, v)).
Qed.

Lemma clonable_checked map : clonable_check map = true → clonable map.
Proof.
  unfold clonable_check. intros [H1 H2]%andb_true_iff.
  apply bool_decide_eq_true in H1, H2. by split.
Qed.
End Checks.

(** ** The sample graphs arise in runs of the application *)

Example sampleChain_reached :
  nodes <$> run defaultState opsChain = Some sampleChain.
Proof. vm_compute. reflexivity. Qed.

Example sampleFork_reached :
  nodes <$> run defaultState opsFork = Some sampleFork.
Proof. vm_compute. reflexivity. Qed.

Example sampleNested_reached :
  nodes <$> run defaultState opsNested = Some sampleNested.
Proof. vm_compute. reflexivity. Qed.

Example sampleOrphan_reached :
  nodes <$> run defaultState opsOrphan = Some sampleOrphan.
Proof. vm_compute. reflexivity. Qed.

(** ** Operations that cannot apply *)

(** The updaters that hand their argument back. *)
Lemma updaters_refuse (prev : Nodes) :
  (∀ p bl kind newId,
     getNode prev p = None → addNode p bl kind newId prev = SameRef) ∧
  (∀ p bl kind newId parent,
     getNode prev p = Some parent → node_type parent = end_ →
     addNode p bl kind newId prev = SameRef) ∧
  (∀ fuel, deleteNode fuel rootId prev = Some SameRef) ∧
  (∀ fuel t,
     findParent fuel rootId t prev = Some None →
     deleteNode fuel t prev = Some SameRef) ∧
  (∀ nodeId, getNode prev nodeId = None → addBranchPath nodeId prev = SameRef) ∧
  (∀ nodeId node,
     getNode prev nodeId = Some node → node_type node ≠ branch →
     addBranchPath nodeId prev = SameRef).
Proof.
  split; [|split; [|split; [|split; [|split]]]].
  - intros p bl kind newId Hp. unfold addNode. by rewrite Hp.
  - intros p bl kind newId parent Hp Hty. unfold addNode. by rewrite Hp, Hty.
  - intros fuel. unfold deleteNode. by rewrite decide_True.
  - intros fuel t Hf. unfold deleteNode, deleteNode_updater.
    case_decide; [done|]. by rewrite Hf.
  - intros nodeId Hn. unfold addBranchPath. by rewrite Hn.
  - intros nodeId node Hn Hty. unfold addBranchPath. rewrite Hn.
    by rewrite decide_False.
Qed.

(** [updateLabel] on an id without a node binds that id to [undefined]. *)
Lemma updateLabel_unknown id label (prev : Nodes) :
  getNode prev id = None →
  updateLabel id label prev = <[id := None]> prev.
Proof. intros H. unfold updateLabel. by rewrite H. Qed.

(** C3. The code at the failing input: [updateLabel] with an id that is
    not in the default graph returns a map that differs from its input - it
    has the unknown id as a key, bound to [undefined] - instead of the
    input unchanged; the next tracked operation then faults in
    [cloneNodes]. *)
Theorem updateLabel_unknown_id_adds_key :
  getNode defaultGraph "node-9" = None ∧
  defaultGraph !! "node-9" = None ∧
  updateLabel "node-9" "x" defaultGraph !! "node-9" = Some None ∧
  updateLabel "node-9" "x" defaultGraph ≠ defaultGraph ∧
  cloneNodes (updateLabel "node-9" "x" defaultGraph) = None ∧
  run defaultState [(9, UpdateLabel "node-9" "x")] =
    Some (mkState (updateLabel "node-9" "x" defaultGraph) [defaultGraph] 0) ∧
  run defaultState [(9, UpdateLabel "node-9" "x"); (9, Insert rootId None action)]
    = None.
Proof.
  split; [by vm_compute|]. split; [by vm_compute|]. split; [by vm_compute|].
  split.
  - intros H. apply (f_equal (λ m : Nodes, m !! "node-9")) in H.
    by vm_compute in H.
  - split; [by vm_compute|]. split; by vm_compute.
Qed.

(** * The claims on concrete graphs *)

Ltac in_list := repeat first [apply list_elem_of_here | apply list_elem_of_further].



(** C2, as stated, fails for an End node: under the root of [sampleChain],
    whose edge leads to node-1, Insert of an End stores a node without
    edges, and node-1 is cut off. *)
Lemma addNode_end_inherits_nothing :
  getNode sampleChain rootId =
    Some (mkNode rootId "Start" action [mkEdge (Some "node-1") "Next"]) ∧
  nextId sampleChain = "node-2" ∧
  addNode rootId None end_ (nextId sampleChain) sampleChain = Fresh sampleChainEnd ∧
  getNode sampleChainEnd "node-2" = Some (mkNode "node-2" "End" end_ []) ∧
  reachable sampleChain "node-1" ∧
  ¬ reachable sampleChainEnd "node-1".
Proof.
  split; [by vm_compute|]. split; [by vm_compute|]. split; [by vm_compute|].
  split; [by vm_compute|]. split.
  - apply (reachable_step _ rootId 0); [apply rtc_refl|by vm_compute].
  - intros H.
    apply (closed_under_reachable ["node-0"; "node-2"]) in H;
      [|in_list|by vm_compute].
    apply (bool_decide_pack _) in H. by vm_compute in H.
Qed.

(** C2 (amended), at [sampleChain]: Insert of a Branch under the root. *)
Lemma addNode_under_action_witness :
  ∃ next inserted,
    addNode rootId None branch (nextId sampleChain) sampleChain = Fresh next ∧
    sampleChain !! nextId sampleChain = None ∧
    getNode next rootId =
      Some (with_children (mkNode rootId "Start" action [mkEdge (Some "node-1") "Next"])
              [mkEdge (Some (nextId sampleChain)) "Next"]) ∧
    getNode next (nextId sampleChain) = Some inserted ∧
    node_id inserted = nextId sampleChain ∧ node_type inserted = branch ∧
    children inserted = [mkEdge (Some "node-1") "True"; mkEdge None "False"] ∧
    (branch ≠ end_ →
     ∃ first, children inserted !! 0 = Some first ∧ connected first = Some "node-1") ∧
    (∀ k, k ≠ rootId → k ≠ nextId sampleChain → next !! k = sampleChain !! k).
Proof.
  apply (addNode_under_action sampleChain rootId
           (mkNode rootId "Start" action [mkEdge (Some "node-1") "Next"])
           (mkEdge (Some "node-1") "Next") "node-1" None branch).
  - apply counted_keys_checked. vm_compute. reflexivity.
  - vm_compute. reflexivity.
  - reflexivity.
  - reflexivity.
  - reflexivity.
Defined.


(** What Delete stores for node-1 in that graph: the two composite edges in
    place of the slot, the old "False" edge, and a new blank "True". *)
Example deleteNode_branch_splice_stored :
  (deleteNode 9 "node-2" sampleNested ≫= λ o,
   getNode (outcome_nodes sampleNested o) "node-1" ≫= λ n, Some (children n)) =
  Some [mkEdge (Some "node-3") "True + True"; mkEdge (Some "node-4") "True + False";
        mkEdge None "False"; mkEdge None "True"].
Proof. vm_compute. reflexivity. Qed.




(** C8, on a run that mixes every kind of operation, a refused Delete of
    the root and a label edit on an unknown id included. *)
Lemma root_stays_action_witness :
  ∃ st,
    run defaultState opsMixed = Some st ∧
    ∃ n, nodes st !! rootId = Some (Some n) ∧ node_type n = action.
Proof.
  destruct (run defaultState opsMixed) as [st|] eqn:Hrun;
    [|vm_compute in Hrun; discriminate].
  exists st. split; [reflexivity|].
  apply (root_stays_action defaultState st opsMixed).
  - reflexivity.
  - exact Hrun.
Defined.

(** C9, at [sampleFork], looking for node-3 from the root. *)
Lemma findParent_first_in_dfs_order_witness :
  acyclic sampleFork ∧ plain_targets sampleFork ∧ inherited rootId = false ∧
  ∃ order,
    dfs_order (S (size sampleFork)) rootId sampleFork = Some order ∧
    (∀ owner i tgt,
       (owner, i, tgt) ∈ order ↔ reachable_edge sampleFork rootId owner i tgt) ∧
    findParent (S (size sampleFork)) rootId "node-3" sampleFork
      = Some (first_target "node-3" order) ∧
    (∀ fuel r, findParent fuel rootId "node-3" sampleFork = Some r →
               r = first_target "node-3" order) ∧
    (first_target "node-3" order = None ↔
     ¬ ∃ owner i, reachable_edge sampleFork rootId owner i (Some "node-3")).
Proof.
  assert (acyclic sampleFork) as Hacyc.
  { apply (rank_decreases_acyclic rank_by_id). vm_compute. reflexivity. }
  assert (plain_targets sampleFork) as Hplain.
  { apply plain_targets_checked. vm_compute. reflexivity. }
  split; [exact Hacyc|]. split; [exact Hplain|]. split; [reflexivity|].
  apply (findParent_first_in_dfs_order sampleFork rootId "node-3" Hacyc Hplain).
  reflexivity.
Defined.

Example findParent_sampleFork :
  dfs_order 5 rootId sampleFork =
    Some [("node-0", 0, Some "node-1"); ("node-1", 0, Some "node-2");
          ("node-1", 1, Some "node-3")] ∧
  findParent 5 rootId "node-3" sampleFork = Some (Some ("node-1", 1)) ∧
  findParent 5 rootId "node-9" sampleFork = Some None.
Proof. vm_compute. done. Qed.


(** What the three write back for node-1 of [sampleBare]. *)
Example writes_on_sampleBare :
  (getNode (outcome_nodes sampleBare
              (addNode "node-1" None action "node-3" sampleBare)) "node-1"
   ≫= λ n, Some (children n)) =
    Some [mkEdge (Some "node-3") "Yes"; mkEdge None "True"; mkEdge None "False"] ∧
  (deleteNode 9 "node-2" sampleBare ≫= λ o,
   getNode (outcome_nodes sampleBare o) "node-1" ≫= λ n, Some (children n)) =
    Some [mkEdge None "Yes"; mkEdge None "True"; mkEdge None "False"] ∧
  (getNode (outcome_nodes sampleBare (addBranchPath "node-1" sampleBare)) "node-1"
   ≫= λ n, Some (children n)) =
    Some [mkEdge (Some "node-2") "Yes"; mkEdge None "Path 2"] ∧
  (deleteNode 9 "node-2" sampleNested ≫= λ o,
   getNode (outcome_nodes sampleNested o) "node-1" ≫= λ n, Some (children n)) =
    Some [mkEdge (Some "node-3") "True + True"; mkEdge (Some "node-4") "True + False";
          mkEdge None "False"; mkEdge None "True"].
Proof. vm_compute. done. Qed.

(** AddBranchPath on a Branch without canonical edges stores no repair. *)
Example addBranchPath_no_repair :
  let bare : Nodes :=
    {[ "node-1" := Some (mkNode "node-1" "Branch" branch []) ]} in
  (getNode (outcome_nodes bare (addBranchPath "node-1" bare)) "node-1" ≫= λ n,
   Some (children n)) = Some [mkEdge None "Path 1"].
Proof. vm_compute. reflexivity. Qed.

Example addBranchPath_third :
  (getNode (outcome_nodes sampleFork (addBranchPath "node-1" sampleFork)) "node-1"
   ≫= λ n, Some (edge_label <$> children n)) = Some ["True"; "False"; "Path 3"].
Proof. vm_compute. reflexivity. Qed.

(** The scenario of the specification: Insert of an Action under the root,
    Insert of a Branch between the two, Delete of the Branch. *)
Example scenario_insert_between_then_delete :
  (nodes <$> run defaultState
     [(9, Insert rootId None action); (9, Insert rootId None branch)]) =
  Some (list_to_map
    [("node-0", Some (mkNode "node-0" "Start" action [mkEdge (Some "node-2") "Next"]));
     ("node-1", Some (mkNode "node-1" "Action" action []));
     ("node-2", Some (mkNode "node-2" "Branch" branch
                        [mkEdge (Some "node-1") "True"; mkEdge None "False"]))]) ∧
  (nodes <$> run defaultState
     [(9, Insert rootId None action); (9, Insert rootId None branch);
      (9, Delete "node-2")]) =
  Some sampleChain.
Proof. split; vm_compute; reflexivity. Qed.

(** A label edit is no commit: it leaves the cursor at 0, where Undo does
    nothing, and the edited label stays. *)
Example label_edit_is_not_undone :
  (run defaultState [(9, UpdateLabel rootId "Begin"); (9, Undo)] ≫= λ st,
   getNode (nodes st) rootId ≫= λ n, Some (historyIndex st, node_label n))
  = Some (0, "Begin").
Proof. vm_compute. reflexivity. Qed.

(** * Further properties of the code *)

(** ** [cloneNodes] *)

Section CloneMore.
Implicit Types (map : Nodes).

Lemma clone_fold_result (l : list (string * option WorkflowNode)) c :
  foldr clone_step (Some ∅) l = Some c →
  coherent c ∧ all_defined c ∧
  ∀ k n, c !! k = Some (Some n) → ∃ k', (k', Some n) ∈ l.
Proof.
  revert c. induction l as [|[k v] l IH]; intros c; simpl.
  - intros [= <-]. split; [|split]; intros k n; by rewrite lookup_empty.
  - unfold clone_step at 1. simpl.
    destruct (foldr clone_step (Some ∅) l) as [acc|] eqn:Hacc; [|done].
    destruct v as [n|]; [|done]. intros [= <-].
    destruct (IH acc eq_refl) as (Hcoh & Hdef & Hsrc).
    rewrite clone_node_id. split; [|split].
    + intros k' n'. rewrite lookup_insert. case_decide as Hk.
      * intros [= <-]. done.
      * apply Hcoh.
    + intros k' v'. rewrite lookup_insert. case_decide as Hk.
      * intros [= <-]. by eexists.
      * apply Hdef.
    + intros k' n'. rewrite lookup_insert. case_decide as Hk.
      * intros [= <-]. exists k. by left.
      * intros H. destruct (Hsrc _ _ H) as [k'' Hin]. exists k''. by right.
Qed.
End CloneMore.

(** X1. [cloneNodes] throws exactly when some key of the map is bound to
    [undefined]. *)
Theorem cloneNodes_faults_iff (map : Nodes) :
  cloneNodes map = None ↔ ∃ k, map !! k = Some None.
Proof.
  split.
  - intros Hnone.
    destruct (decide (Forall (λ kv : string * option WorkflowNode, is_Some kv.2)
                        (map_to_list map))) as [Hall|Hnot].
    + destruct (clone_fold_defined _ Hall) as [c Hc].
      unfold cloneNodes in Hnone. congruence.
    + apply not_Forall_Exists in Hnot; [|apply _].
      apply Exists_exists in Hnot as ([k v] & Hin & Hv).
      exists k. apply elem_of_map_to_list in Hin.
      destruct v as [n|]; [|done]. destruct Hv. by eexists.
  - intros [k Hk]. by eapply cloneNodes_undefined.
Qed.

(** X2. Of a map whose stored nodes carry pairwise different ids, none of
    them [__proto__]: a copy that [cloneNodes] returns files every node
    under its own id field, binds no key to [undefined], holds only nodes of
    the input, and is a fixed point of [cloneNodes]; when the input itself
    files every node under its id field, the copy equals the input. *)
Theorem cloneNodes_copy (map c : Nodes) :
  clonable map →
  cloneNodes map = Some c →
  coherent c ∧ all_defined c ∧
  (∀ k n, c !! k = Some (Some n) → ∃ k', map !! k' = Some (Some n)) ∧
  cloneNodes c = Some c ∧
  (coherent map → c = map).
Proof.
  intros _ Hc. destruct (clone_fold_result _ _ Hc) as (Hcoh & Hdef & Hsrc).
  split; [done|]. split; [done|]. split; [|split].
  - intros k n Hk. destruct (Hsrc _ _ Hk) as [k' Hin].
    exists k'. by apply elem_of_map_to_list.
  - by apply cloneNodes_defined.
  - intros Hm. by destruct (cloneNodes_coherent _ _ Hm Hc).
Qed.

(** ** [ensureBranchEdges] *)

(** X3. Normalisation keeps the given edges as a prefix and appends at most
    two edges, each unconnected and canonical; it appends nothing exactly
    when both canonical labels are present, and the connected targets, in
    order, are those of the input. *)
Theorem ensureBranchEdges_only_appends (edges : list Edge) :
  ∃ extra,
    ensureBranchEdges edges = edges ++ extra ∧
    length extra ≤ 2 ∧
    Forall canonical_blank extra ∧
    (extra = [] ↔ has_canonical edges) ∧
    omap connected (ensureBranchEdges edges) = omap connected edges.
Proof.
  exists ((if has_label "True" edges then [] else [mkEdge None "True"]) ++
          (if has_label "False" edges then [] else [mkEdge None "False"])).
  assert (ensureBranchEdges edges =
          edges ++ (if has_label "True" edges then [] else [mkEdge None "True"]) ++
          (if has_label "False" edges then [] else [mkEdge None "False"])) as Heq.
  { unfold ensureBranchEdges. simpl. unfold ensure_label.
    destruct (has_label "True" edges) eqn:HT.
    - simpl. destruct (has_label "False" edges); by rewrite ?app_nil_r.
    - rewrite has_label_app.
      replace (has_label "False" [mkEdge None "True"]) with false by done.
      rewrite orb_false_r.
      destruct (has_label "False" edges); by rewrite <- ?app_assoc, ?app_nil_r. }
  split; [done|]. split; [|split; [|split]].
  - destruct (has_label "True" edges), (has_label "False" edges); simpl; lia.
  - unfold canonical_blank, BRANCH_BASE.
    destruct (has_label "True" edges), (has_label "False" edges); simpl;
      repeat (apply Forall_cons; split; [split; [done|set_solver]|]);
      apply Forall_nil_2.
  - unfold has_canonical.
    destruct (has_label "True" edges), (has_label "False" edges); simpl;
      split; try done; intros [? ?]; done.
  - apply omap_connected_ensure.
Qed.

(** ** [findParent] on arbitrary maps *)

(** X4. Whatever the map, cyclic or not: a pair that [findParent] returns
    names a stored node that the start reaches, an index inside its edges,
    and an edge there whose target is the sought id; searching from another
    node than the sought one, the owner is not the sought node itself. *)
Theorem findParent_match_is_edge
    (fuel : nat) (map : Nodes) (from t p : string) (i : nat) :
  findParent fuel from t map = Some (Some (p, i)) →
  ∃ n e,
    getNode map p = Some n ∧
    children n !! i = Some e ∧ i < length (children n) ∧
    edge_id e = Some t ∧
    rtc (edge_step map) from p ∧
    (from ≠ t → p ≠ t).
Proof.
  intros Hfind.
  pose proof Hfind as (Hpath & n & e & Hn & He & Hid)%findParent_sound.
  exists n, e. split; [done|]. split; [done|].
  split; [by eapply lookup_lt_Some|]. split; [done|]. split.
  - eapply rtc_subrel; [|exact Hpath]. by intros a b [? _].
  - intros Hne. apply rtc_inv_r in Hpath as [<-|(y & _ & _ & Hp)]; done.
Qed.

(** ** Node ids *)

(** X5. For a map whose keys the counter counts exactly ([counted_keys]):
    the id that [nextId] hands out is not a key of the map (not even one
    bound to [undefined]), is not the root id, and carries a number one
    above the largest number that a key of the map carries, a number the
    counter still holds exactly. *)
Theorem nextId_is_new (map : Nodes) :
  counted_keys map →
  (maxId map + 1 ≤ 2 ^ 53)%N ∧
  map !! nextId map = None ∧
  nextId map ≠ rootId ∧
  Number (replace_first "node-" (nextId map)) = Some (maxId map + 1)%N ∧
  (∀ k v n, map !! k = Some v → Number (replace_first "node-" k) = Some n →
            (n < maxId map + 1)%N).
Proof.
  intros Hkeys. split.
  - destruct (maxId_attained map) as [->|(k & v & Hk & Hnum)]; [done|].
    specialize (Hkeys k v Hk). unfold counted in Hkeys. rewrite Hnum in Hkeys.
    apply bool_decide_eq_true in Hkeys. lia.
  - split; [apply nextId_fresh|]. split; [apply nextId_not_root|].
    split; [apply Number_nextId_key|].
    intros k v n Hk Hn. pose proof (maxId_upper _ _ _ _ Hk Hn). lia.
Qed.

(** ** Insert under a Branch *)

Section InsertBranch.
Implicit Types (edges : list Edge).

Lemma findIndex_Some l edges k :
  findIndex l edges = Some k →
  ∃ e, edges !! k = Some e ∧ edge_label e = l ∧
       ∀ j e', j < k → edges !! j = Some e' → edge_label e' ≠ l.
Proof.
  revert k. induction edges as [|e0 rest IH]; intros k; simpl; [done|].
  destruct (decide (edge_label e0 = l)) as [H0|H0].
  - intros [= <-]. exists e0. split; [done|]. split; [done|]. intros; lia.
  - destruct (findIndex l rest) as [k'|]; [|done]. simpl. intros [= <-].
    destruct (IH k' eq_refl) as (e & He & Hl & Hmin).
    exists e. split; [done|]. split; [done|].
    intros [|j] e' Hj He'; simpl in He'; [by injection He' as <-|].
    eapply Hmin; [|done]. lia.
Qed.

Lemma findIndex_None l edges :
  findIndex l edges = None → ∀ e, e ∈ edges → edge_label e ≠ l.
Proof.
  induction edges as [|e0 rest IH]; simpl; [by intros _ e ?%elem_of_nil|].
  destruct (decide (edge_label e0 = l)) as [H0|H0]; [done|].
  destruct (findIndex l rest) as [k'|]; [done|]. intros _ e.
  intros [->|Hin]%elem_of_cons; [done|]. by apply IH.
Qed.

Lemma alter_as_insert (f : Edge → Edge) i edges e :
  edges !! i = Some e → alter f i edges = <[i := f e]> edges.
Proof.
  intros He. apply list_eq. intros j. destruct (decide (j = i)) as [->|Hne].
  - rewrite list_lookup_alter_eq, He. simpl.
    rewrite list_lookup_insert_eq; [done|]. by eapply lookup_lt_Some.
  - by rewrite list_lookup_alter_ne, list_lookup_insert_ne.
Qed.
End InsertBranch.

(** X6. In a map whose keys the counter counts exactly ([counted_keys]),
    Insert under a Branch parent works on the parent's normalised edges.  The slot is the first edge carrying the given label; without a
    label, with an empty one or with one that no edge carries, it is the
    first edge.  The parent is stored with that slot retargeted to the new
    id - label, order and all other slots as they were - and the new node is
    stored as [attachExistingChild] leaves it with the slot's former target:
    a new Action or Branch has a connected former target as the target of
    its first edge, and with an unconnected slot the new node is as
    created.  No other key changes. *)
Theorem addNode_under_branch
    (prev : Nodes) (p : string) (parent : WorkflowNode)
    (branchLabel : option string) (kind : NodeType) :
  counted_keys prev →
  getNode prev p = Some parent →
  node_type parent = branch →
  ∃ slot eo next,
    ensureBranchEdges (children parent) !! slot = Some eo ∧
    match truthy_opt branchLabel with
    | Some l =>
        (edge_label eo = l ∧
         ∀ j e', j < slot → ensureBranchEdges (children parent) !! j = Some e' →
                 edge_label e' ≠ l) ∨
        (slot = 0 ∧ ∀ e', e' ∈ ensureBranchEdges (children parent) → edge_label e' ≠ l)
    | None => slot = 0
    end ∧
    addNode p branchLabel kind (nextId prev) prev = Fresh next ∧
    getNode next p =
      Some (with_children parent
              (<[slot := mkEdge (Some (nextId prev)) (edge_label eo)]>
                 (ensureBranchEdges (children parent)))) ∧
    getNode next (nextId prev) =
      Some (attachExistingChild (createNode (nextId prev) kind) (edge_id eo)) ∧
    (∀ S, connected eo = Some S → kind ≠ end_ →
       ∃ first,
         children (attachExistingChild (createNode (nextId prev) kind) (edge_id eo))
           !! 0 = Some first ∧
         connected first = Some S) ∧
    (connected eo = None →
     attachExistingChild (createNode (nextId prev) kind) (edge_id eo)
       = createNode (nextId prev) kind) ∧
    (∀ k, k ≠ p → k ≠ nextId prev → next !! k = prev !! k).
Proof.
  intros _ Hp Hb.
  pose proof (nextId_fresh prev) as Hfresh.
  assert (nextId prev ≠ p) as Hne.
  { intros Heq. apply getNode_Some in Hp. rewrite Heq in Hfresh. congruence. }
  set (E := ensureBranchEdges (children parent)).
  set (slot := default 0 match truthy_opt branchLabel with
                           | Some l => findIndex l E
                           | None => Some 0
                           end).
  assert (∃ eo, E !! slot = Some eo ∧
            match truthy_opt branchLabel with
            | Some l =>
                (edge_label eo = l ∧
                 ∀ j e', j < slot → E !! j = Some e' → edge_label e' ≠ l) ∨
                (slot = 0 ∧ ∀ e', e' ∈ E → edge_label e' ≠ l)
            | None => slot = 0
            end) as (eo & Heo & Hsel).
  { pose proof (ensure_length (children parent)) as Hlen. fold E in Hlen.
    destruct (lookup_lt_is_Some_2 E 0) as [e0 He0]; [lia|].
    unfold slot. destruct (truthy_opt branchLabel) as [l|]; simpl.
    - destruct (findIndex l E) as [k|] eqn:Hk; simpl.
      + destruct (findIndex_Some _ _ _ Hk) as (e & He & Hl & Hmin).
        exists e. split; [done|]. left. by split.
      + exists e0. split; [done|]. right. split; [done|].
        by apply findIndex_None.
    - by exists e0. }
  exists slot, eo,
    (<[p := Some (with_children parent (alter (λ e, with_id e (Some (nextId prev))) slot E))]>
       (<[nextId prev := Some (attachExistingChild (createNode (nextId prev) kind)
                                  (edge_id eo))]> prev)).
  split; [done|]. split; [done|]. split.
  { unfold addNode. rewrite Hp, Hb. fold E. fold slot. by rewrite Heo. }
  split.
  { rewrite getNode_insert. by rewrite (alter_as_insert _ _ _ _ Heo). }
  split; [by rewrite getNode_insert_ne, getNode_insert|].
  split; [|split].
  - intros S HS Hkind. unfold connected in HS.
    rewrite (attachExistingChild_connected _ _ _ _ HS).
    apply truthy_opt_Some in HS as [_ HS].
    destruct kind; [| |done]; eexists; (split; [done|]);
      by apply connected_truthy.
  - intros Hnone. by apply attachExistingChild_unconnected.
  - intros k Hkp Hkn. by rewrite !lookup_insert_ne.
Qed.

(** ** Insert: reachability and cycles *)

Lemma tc_last {A} (R : relation A) x y : tc R x y → ∃ z, rtc R x z ∧ R z y.
Proof.
  induction 1 as [x y H|x y z H _ (w & Hw & Hz)].
  - exists x. by split.
  - exists w. split; [by eapply rtc_l|done].
Qed.

Lemma attachExistingChild_targets newId kind o e z :
  e ∈ children (attachExistingChild (createNode newId kind) o) →
  connected e = Some z → truthy_opt o = Some z.
Proof.
  destruct (truthy_opt o) as [s|] eqn:Ho.
  - rewrite (attachExistingChild_connected _ _ _ _ Ho).
    apply truthy_opt_Some in Ho as [_ Hs].
    destruct kind; simpl.
    + intros ->%list_elem_of_singleton.
      rewrite (connected_truthy (mkEdge (Some s) "Next") s eq_refl Hs).
      congruence.
    + intros [->|H]%elem_of_cons.
      * rewrite (connected_truthy (mkEdge (Some s) "True") s eq_refl Hs).
        congruence.
      * by apply list_elem_of_singleton in H as ->.
    + by intros ?%elem_of_nil.
  - rewrite (attachExistingChild_unconnected _ _ _ Ho).
    destruct kind; simpl.
    + by intros ?%elem_of_nil.
    + intros [->|H]%elem_of_cons; [done|].
      by apply list_elem_of_singleton in H as ->.
    + by intros ?%elem_of_nil.
Qed.

Section InsertGraph.
Variables (prev : Nodes) (p N : string) (parent parent1 ins : WorkflowNode).
Hypothesis Hparent : getNode prev p = Some parent.
Hypothesis Hfresh : prev !! N = None.

Let next : Nodes := <[p := Some parent1]> (<[N := Some ins]> prev).

Lemma insert_new_ne : N ≠ p.
Proof. intros ->. apply getNode_Some in Hparent. congruence. Qed.

Lemma insert_other a :
  a ≠ p → a ≠ N → getNode next a = getNode prev a.
Proof. intros Hap HaN. unfold next. by rewrite !getNode_insert_ne. Qed.

Lemma insert_prev_not_new a n : getNode prev a = Some n → a ≠ N.
Proof. intros Ha ->. apply getNode_Some in Ha. congruence. Qed.

Section Reach.
Hypothesis Hkeep : ∀ e z,
  e ∈ children parent → connected e = Some z →
  (∃ e', e' ∈ children parent1 ∧ connected e' = Some z) ∨
  (∃ e2, e2 ∈ children ins ∧ connected e2 = Some z).
Hypothesis HtoN : ∃ e1, e1 ∈ children parent1 ∧ connected e1 = Some N.

Lemma insert_step_to_new : edge_step next p N.
Proof.
  destruct HtoN as (e1 & Hin & Hc). exists parent1, e1.
  unfold next. by rewrite getNode_insert.
Qed.

Lemma insert_reachable_kept u : reachable prev u → reachable next u.
Proof.
  unfold reachable. intros Hreach.
  refine (rtc_ind_r (λ u, rtc (edge_step next) rootId u) rootId _ _ u Hreach);
    [done|].
  clear u Hreach. intros y z _ (n & e & Hn & Hin & Hc) IH.
  pose proof (insert_prev_not_new _ _ Hn) as HyN.
  destruct (decide (y = p)) as [->|Hyp].
  - rewrite Hparent in Hn. injection Hn as <-.
    destruct (Hkeep e z Hin Hc) as [(e' & Hin' & Hc')|(e2 & Hin2 & Hc2)].
    + eapply rtc_r; [exact IH|]. exists parent1, e'.
      unfold next. by rewrite getNode_insert.
    + eapply rtc_r; [eapply rtc_r; [exact IH|apply insert_step_to_new]|].
      exists ins, e2. unfold next.
      rewrite getNode_insert_ne, getNode_insert by done. done.
  - eapply rtc_r; [exact IH|]. exists n, e. by rewrite insert_other.
Qed.
End Reach.

Section Cycles.
Hypothesis Hunref : unreferenced prev N.
Hypothesis Hparent1 : ∀ e z,
  e ∈ children parent1 → connected e = Some z →
  z = N ∨ ∃ e0, e0 ∈ children parent ∧ connected e0 = Some z.
Hypothesis Hins : ∀ e z,
  e ∈ children ins → connected e = Some z →
  ∃ e0, e0 ∈ children parent ∧ connected e0 = Some z.

Let back (a : string) : string := if decide (a = N) then p else a.

Lemma insert_step_back a b :
  edge_step next a b → b ≠ N → edge_step prev (back a) b.
Proof.
  intros (n & e & Hn & Hin & Hc) Hb. unfold back, next in *.
  destruct (decide (a = N)) as [->|HaN].
  - rewrite getNode_insert_ne, getNode_insert in Hn
      by (intros Heq; by apply insert_new_ne).
    injection Hn as <-. destruct (Hins e b Hin Hc) as (e0 & Hin0 & Hc0).
    by exists parent, e0.
  - destruct (decide (a = p)) as [->|Hap].
    + rewrite getNode_insert in Hn. injection Hn as <-.
      destruct (Hparent1 e b Hin Hc) as [->|(e0 & Hin0 & Hc0)]; [done|].
      by exists parent, e0.
    + rewrite !getNode_insert_ne in Hn by done. by exists n, e.
Qed.

Lemma insert_step_into_new a : edge_step next a N → a = p.
Proof.
  intros (n & e & Hn & Hin & Hc). unfold next in Hn.
  destruct (decide (a = p)) as [|Hap]; [done|]. exfalso.
  rewrite getNode_insert_ne in Hn by done.
  destruct (decide (a = N)) as [->|HaN].
  - rewrite getNode_insert in Hn. injection Hn as <-.
    destruct (Hins e N Hin Hc) as (e0 & Hin0 & Hc0).
    apply connected_Some in Hc0 as [Hc0 _]. by eapply (Hunref p parent e0).
  - rewrite getNode_insert_ne in Hn by done.
    apply connected_Some in Hc as [Hc _]. by eapply (Hunref a n e).
Qed.

Lemma insert_tc_back a b :
  tc (edge_step next) a b → b ≠ N → tc (edge_step prev) (back a) b.
Proof.
  induction 1 as [a b Hs|a c b Hs _ IH]; intros Hb.
  - apply tc_once. by apply insert_step_back.
  - destruct (decide (c = N)) as [->|Hc].
    + apply insert_step_into_new in Hs as ->.
      specialize (IH Hb). unfold back in *.
      rewrite decide_True in IH by done.
      rewrite decide_False by (intros Heq; by apply insert_new_ne).
      done.
    + eapply tc_l; [by apply insert_step_back|].
      specialize (IH Hb). unfold back in IH at 1.
      by rewrite decide_False in IH.
Qed.

Lemma insert_acyclic : acyclic prev → acyclic next.
Proof.
  intros Hacyc a Hcyc. destruct (decide (a = N)) as [->|HaN].
  - destruct (tc_last _ _ _ Hcyc) as (z & Hz & Hlast).
    apply insert_step_into_new in Hlast as ->.
    apply rtc_tc in Hz as [Heq|Htc]; [by apply insert_new_ne|].
    apply insert_tc_back in Htc; [|intros Heq; by apply insert_new_ne].
    unfold back in Htc. rewrite decide_True in Htc by done.
    by apply (Hacyc p).
  - apply insert_tc_back in Hcyc; [|done].
    unfold back in Hcyc. rewrite decide_False in Hcyc by done.
    by apply (Hacyc a).
Qed.
End Cycles.
End InsertGraph.

(** A path can be cut at its first visit of the end point. *)
Lemma rtc_first_visit (R : relation string) x y :
  rtc R x y → rtc (λ a b, R a b ∧ a ≠ y) x y.
Proof.
  induction 1 as [|x z y Hs _ IH]; [done|].
  destruct (decide (x = y)) as [->|Hne]; [done|].
  by eapply rtc_l.
Qed.

Lemma insert_path_to_parent (prev : Nodes) p N v w x y :
  prev !! N = None →
  rtc (λ a b, edge_step prev a b ∧ a ≠ p) x y →
  rtc (edge_step (<[p := v]> (<[N := w]> prev))) x y.
Proof.
  intros Hfresh Hpath. induction Hpath as [|a b c [Hs Ha] _ IH]; [done|].
  eapply rtc_l; [|exact IH].
  destruct Hs as (n & e & Hn & Hin & Hc). exists n, e.
  rewrite !getNode_insert_ne; [done| |done].
  intros <-. apply getNode_Some in Hn. congruence.
Qed.

Lemma attachExistingChild_first newId kind o z :
  truthy_opt o = Some z → kind ≠ end_ →
  ∃ e, e ∈ children (attachExistingChild (createNode newId kind) o) ∧
       connected e = Some z.
Proof.
  intros Ho Hk. rewrite (attachExistingChild_connected _ _ _ _ Ho).
  apply truthy_opt_Some in Ho as [_ Hz].
  destruct kind; [| |done]; eexists; (split; [by left|]);
    by apply connected_truthy.
Qed.

(** The graph that [addNode] builds, in the terms of [InsertGraph]. *)
Lemma addNode_graph p bl kind newId prev parent next :
  getNode prev p = Some parent → truthy newId = true →
  addNode p bl kind newId prev = Fresh next →
  ∃ parent1 ins,
    next = <[p := Some parent1]> (<[newId := Some ins]> prev) ∧
    (∃ e1, e1 ∈ children parent1 ∧ connected e1 = Some newId) ∧
    (∀ e z, e ∈ children parent1 → connected e = Some z →
       z = newId ∨ ∃ e0, e0 ∈ children parent ∧ connected e0 = Some z) ∧
    (∀ e z, e ∈ children ins → connected e = Some z →
       ∃ e0, e0 ∈ children parent ∧ connected e0 = Some z) ∧
    (kind ≠ end_ → (node_type parent = action → length (children parent) ≤ 1) →
     ∀ e z, e ∈ children parent → connected e = Some z →
       (∃ e', e' ∈ children parent1 ∧ connected e' = Some z) ∨
       (∃ e2, e2 ∈ children ins ∧ connected e2 = Some z)).
Proof.
  intros Hp Hnew Hadd.
  destruct (addNode_shape _ _ _ _ _ _ _ Hp Hadd)
    as (slot & o & parent1 & -> & Hty & Hnend & Hact & Hbr & _).
  exists parent1, (attachExistingChild (createNode newId kind) o).
  split; [done|].
  destruct (node_type parent) eqn:Hk; [| |done].
  - destruct (Hact eq_refl) as (_ & -> & Hch). rewrite Hch.
    split; [|split; [|split]].
    + eexists. split; [by left|]. by apply connected_truthy.
    + intros e z ->%list_elem_of_singleton Hc. left.
      rewrite (connected_truthy (mkEdge (Some newId) "Next") newId eq_refl Hnew)
        in Hc.
      congruence.
    + intros e z Hin Hc.
      apply attachExistingChild_targets with (z := z) in Hin; [|done].
      destruct (children parent) as [|e0 rest]; [done|]. simpl in Hin.
      exists e0. split; [by left|done].
    + intros Hkind Hlen e z Hin Hc. right.
      specialize (Hlen eq_refl).
      destruct (children parent) as [|e0 [|e1 rest]]; simpl in Hlen; [| |lia].
      * by apply elem_of_nil in Hin.
      * apply list_elem_of_singleton in Hin as ->. simpl.
        by apply attachExistingChild_first.
  - destruct (Hbr eq_refl) as (-> & Hslot & Hch). rewrite Hch.
    set (E := ensureBranchEdges (children parent)) in *.
    destruct (lookup_lt_is_Some_2 E slot Hslot) as [eo Heo].
    rewrite Heo. simpl.
    split; [|split; [|split]].
    + exists (with_id eo (Some newId)). split; [|by apply connected_truthy].
      apply list_elem_of_lookup. exists slot.
      by rewrite list_lookup_alter_eq, Heo.
    + intros e z [j Hj]%list_elem_of_lookup Hc.
      destruct (decide (j = slot)) as [->|Hne].
      * rewrite list_lookup_alter_eq, Heo in Hj. injection Hj as <-. left.
        rewrite (connected_truthy (with_id eo (Some newId)) newId eq_refl Hnew)
          in Hc.
        congruence.
      * rewrite list_lookup_alter_ne in Hj by done. right. exists e.
        split; [|done]. eapply ensure_connected_elem; [|done].
        by eapply list_elem_of_lookup_2.
    + intros e z Hin Hc.
      apply attachExistingChild_targets with (z := z) in Hin; [|done].
      exists eo. split; [|done]. eapply ensure_connected_elem; [|exact Hin].
      by eapply list_elem_of_lookup_2.
    + intros Hkind _ e z [j Hj]%list_elem_of_lookup Hc.
      apply (ensure_lookup_Some (children parent)) in Hj. fold E in Hj.
      destruct (decide (j = slot)) as [->|Hne].
      * right. rewrite Heo in Hj. injection Hj as ->.
        by apply attachExistingChild_first.
      * left. exists e. split; [|done].
        apply list_elem_of_lookup. exists j.
        by rewrite list_lookup_alter_ne.
Qed.

Lemma nextId_truthy (map : Nodes) : truthy (nextId map) = true.
Proof. reflexivity. Qed.

(** X7. In a map whose keys the counter counts exactly ([counted_keys]),
    Insert keeps the graph connected: when the parent was reachable
    from the root, so is the new node; and when the new node is an Action
    or a Branch (and an Action parent holds at most one edge), every node
    that was reachable from the root still is. *)
Theorem addNode_keeps_reachable
    (prev next : Nodes) (p : string) (parent : WorkflowNode)
    (branchLabel : option string) (kind : NodeType) :
  counted_keys prev →
  getNode prev p = Some parent →
  addNode p branchLabel kind (nextId prev) prev = Fresh next →
  (reachable prev p → reachable next (nextId prev)) ∧
  (kind ≠ end_ →
   (node_type parent = action → length (children parent) ≤ 1) →
   ∀ u, reachable prev u → reachable next u).
Proof.
  intros _ Hp Hadd.
  destruct (addNode_graph _ _ _ _ _ _ _ Hp (nextId_truthy prev) Hadd)
    as (parent1 & ins & -> & HtoN & _ & _ & Hkeep).
  pose proof (nextId_fresh prev) as Hfresh.
  assert (kind ≠ end_ →
          (node_type parent = action → length (children parent) ≤ 1) →
          ∀ u, reachable prev u →
               reachable (<[p := Some parent1]> (<[nextId prev := Some ins]> prev)) u)
    as Hall.
  { intros Hkind Hlen u. eapply insert_reachable_kept; try done.
    by apply Hkeep. }
  split; [|done].
  intros Hreach.
  assert (reachable (<[p := Some parent1]> (<[nextId prev := Some ins]> prev)) p)
    as Hp'.
  { unfold reachable in *. apply rtc_first_visit in Hreach.
    by apply insert_path_to_parent. }
  eapply rtc_r; [exact Hp'|]. by eapply insert_step_to_new.
Qed.

(** X8. Insert creates no cycle: in a map whose keys the counter counts
    exactly ([counted_keys]) and where no stored edge targets the id handed
    out, the map after Insert is acyclic if the map before was. *)
Theorem addNode_keeps_acyclic
    (prev next : Nodes) (p : string)
    (branchLabel : option string) (kind : NodeType) :
  counted_keys prev →
  unreferenced prev (nextId prev) →
  addNode p branchLabel kind (nextId prev) prev = Fresh next →
  acyclic prev → acyclic next.
Proof.
  intros _ Hunref Hadd Hacyc.
  destruct (getNode prev p) as [parent|] eqn:Hp;
    [|by unfold addNode in Hadd; rewrite Hp in Hadd].
  destruct (addNode_graph _ _ _ _ _ _ _ Hp (nextId_truthy prev) Hadd)
    as (parent1 & ins & -> & _ & Hp1 & Hins & _).
  eapply insert_acyclic; try done. apply nextId_fresh.
Qed.

(** ** Delete: when it commits, what it writes, and cycles *)

Lemma rewire_branch_sources (edges adopted : list Edge) i e z :
  e ∈ rewire_branch edges i adopted → connected e = Some z →
  (∃ e0, e0 ∈ edges ∧ connected e0 = Some z) ∨
  (∃ a, a ∈ adopted ∧ connected a = Some z).
Proof.
  unfold rewire_branch.
  set (base := default (mkEdge None "Next") (edges !! i)).
  assert (∀ x, e ∈ <[i := with_id base x]> edges → connected e = Some z →
               (∃ e0, e0 ∈ edges ∧ connected e0 = Some z) ∨ truthy_opt x = Some z)
    as Hset.
  { intros x [j Hj]%list_elem_of_lookup Hc.
    apply list_lookup_insert_Some in Hj as [(-> & <- & _)|[_ Hj]].
    - by right.
    - left. exists e. split; [by eapply list_elem_of_lookup_2|done]. }
  destruct adopted as [|a0 [|a1 rest]].
  - intros Hin Hc. destruct (Hset None Hin Hc) as [?|?]; [by left|done].
  - intros Hin Hc. destruct (Hset (edge_id a0) Hin Hc) as [?|?]; [by left|].
    right. exists a0. split; [by left|done].
  - unfold splice1. rewrite !elem_of_app.
    intros [Hin|[Hin|Hin]] Hc.
    + left. exists e. split; [|done].
      apply list_elem_of_lookup in Hin as [j Hj].
      apply lookup_take_Some in Hj as [Hj _]. by eapply list_elem_of_lookup_2.
    + right. apply list_elem_of_lookup in Hin as [j Hj].
      rewrite list_lookup_imap in Hj.
      destruct ((a0 :: a1 :: rest) !! j) as [a|] eqn:Ha; [|done].
      injection Hj as <-. exists a. split; [by eapply list_elem_of_lookup_2|done].
    + left. exists e. split; [|done].
      apply list_elem_of_lookup in Hin as [j Hj].
      rewrite lookup_drop in Hj. by eapply list_elem_of_lookup_2.
Qed.

Section DeleteCycles.
Variables (prev : Nodes) (t p : string) (parent target : WorkflowNode).
Variable kept : list Edge.
Hypothesis Hparent : getNode prev p = Some parent.
Hypothesis Htarget : getNode prev t = Some target.
Hypothesis Hslot : ∃ e, e ∈ children parent ∧ connected e = Some t.
Hypothesis Hsrc : ∀ e z,
  e ∈ kept → connected e = Some z →
  (∃ e0, e0 ∈ children parent ∧ connected e0 = Some z) ∨
  (∃ a, a ∈ children target ∧ connected a = Some z).

Let next : Nodes := <[p := Some (with_children parent kept)]> (delete t prev).

Lemma delete_step_back a b : edge_step next a b → tc (edge_step prev) a b.
Proof.
  intros (n & e & Hn & Hin & Hc). unfold next in Hn.
  destruct (decide (a = p)) as [->|Hap].
  - rewrite getNode_insert in Hn. injection Hn as <-. simpl in Hin.
    destruct (Hsrc e b Hin Hc) as [(e0 & Hin0 & Hc0)|(a & Hina & Hca)].
    + apply tc_once. by exists parent, e0.
    + destruct Hslot as (es & Hins & Hcs).
      eapply tc_l; [by exists parent, es|].
      apply tc_once. by exists target, a.
  - rewrite getNode_insert_ne in Hn by done.
    destruct (decide (a = t)) as [->|Hat]; [by rewrite getNode_delete in Hn|].
    rewrite getNode_delete_ne in Hn by done.
    apply tc_once. by exists n, e.
Qed.

Lemma delete_acyclic : acyclic prev → acyclic next.
Proof.
  assert (∀ a b, tc (edge_step next) a b → tc (edge_step prev) a b) as Hback.
  { intros a b Hab. induction Hab as [a b Hs|a b c Hs _ IH].
    - by apply delete_step_back.
    - etrans; [by apply delete_step_back|done]. }
  intros Hacyc a Hcyc. apply (Hacyc a). by apply Hback.
Qed.
End DeleteCycles.

Lemma delete_only_acyclic (prev : Nodes) t : acyclic prev → acyclic (delete t prev).
Proof.
  intros Hacyc a Hcyc. apply (Hacyc a).
  refine (tc_congruence (λ x, x) (edge_step prev) _ _ _ Hcyc).
  intros x y (n & e & Hn & Hin & Hc). exists n, e. split; [|done].
  destruct (decide (x = t)) as [->|Hne]; [by rewrite getNode_delete in Hn|].
  by rewrite getNode_delete_ne in Hn.
Qed.

Lemma located_slot_owner fuel (prev : Nodes) t p i :
  findParent fuel rootId t prev = Some (Some (p, i)) →
  ∃ parent, getNode prev p = Some parent.
Proof. intros (_ & n & _ & Hn & _)%findParent_sound. by exists n. Qed.

(** X9. Delete creates no cycle: the map that Delete of a non-empty id
    returns is acyclic if the map before was. *)
Theorem deleteNode_keeps_acyclic (fuel : nat) (prev next : Nodes) (t : string) :
  truthy t = true →
  deleteNode fuel t prev = Some (Fresh next) →
  acyclic prev → acyclic next.
Proof.
  intros Htruthy Hdel Hacyc. unfold deleteNode in Hdel.
  destruct (decide (t = rootId)) as [|Hroot]; [done|].
  unfold deleteNode_updater in Hdel.
  destruct (findParent fuel rootId t prev) as [[[p i]|]|] eqn:Hfind; [|done|done].
  destruct (getNode prev p) as [parent|] eqn:Hp; [|done].
  destruct (getNode prev t) as [target|] eqn:Ht; [|done].
  destruct (located_slot _ _ _ _ _ _ Hfind Hp) as (slot & Hslot & Hslot_id).
  assert (∃ e, e ∈ children parent ∧ connected e = Some t) as Hedge.
  { exists slot. split; [by eapply list_elem_of_lookup_2|].
    by apply connected_truthy. }
  destruct (node_type parent); injection Hdel as <-.
  - eapply delete_acyclic; try done.
    intros e z Hin Hc. right.
    destruct (filter _ (children target)) as [|a rest] eqn:Hf;
      [by apply elem_of_nil in Hin|].
    apply list_elem_of_singleton in Hin as ->.
    exists a. split; [|done].
    assert (a ∈ filter (λ e, is_connected e) (children target)) as Ha
      by (rewrite Hf; by left).
    by apply list_elem_of_filter in Ha as [_ Ha].
  - eapply delete_acyclic; try done.
    intros e z Hin Hc.
    apply (ensure_connected_elem _ _ z) in Hin; [|done].
    destruct (rewire_branch_sources _ _ _ _ _ Hin Hc)
      as [(e0 & Hin0 & Hc0)|(a & Hina & Hca)].
    + left. exists e0. split; [|done]. by eapply ensure_connected_elem.
    + right. exists a. split; [|done].
      by apply list_elem_of_filter in Hina as [_ Hina].
  - by apply delete_only_acyclic.
Qed.



(** X12. In a map whose edges target no name of [Object.prototype]: Delete
    hands back a new graph exactly when the id is not the root's, the
    search from the root finds an edge that targets it, and a node is
    stored under it; the search running out is the only way for Delete not
    to answer. *)
Theorem deleteNode_commits_iff (fuel : nat) (prev : Nodes) (t : string) :
  plain_targets prev →
  ((∃ next, deleteNode fuel t prev = Some (Fresh next)) ↔
   t ≠ rootId ∧
   (∃ p i, findParent fuel rootId t prev = Some (Some (p, i))) ∧
   is_Some (getNode prev t)) ∧
  (deleteNode fuel t prev = None ↔
   t ≠ rootId ∧ findParent fuel rootId t prev = None).
Proof.
  intros _. unfold deleteNode, deleteNode_updater.
  destruct (decide (t = rootId)) as [Hroot|Hroot].
  { split; split; try done; [by intros [? ?]|by intros [? _]|by intros [? _]]. }
  destruct (findParent fuel rootId t prev) as [[[p i]|]|] eqn:Hfind.
  - destruct (located_slot_owner _ _ _ _ _ Hfind) as [parent Hp]. rewrite Hp.
    destruct (getNode prev t) as [target|] eqn:Ht.
    + split; split; try done.
      * intros _. split; [done|]. split; [by eexists _, _|by eexists].
      * intros _. destruct (node_type parent); by eexists.
      * by destruct (node_type parent).
      * by intros [_ ?].
    + split; split; try done.
      * by intros [? ?].
      * by intros (_ & _ & [? ?]).
      * by intros [_ ?].
  - split; split; try done.
    + by intros [? ?].
    + by intros (_ & (? & ? & ?) & _).
    + by intros [_ ?].
  - split; split; try done.
    + by intros [? ?].
    + by intros (_ & (? & ? & ?) & _).
Qed.

(** ** Operations that leave the edges alone *)

Section SameEdges.
Variables (prev next : Nodes).
Hypothesis Hsame : ∀ a b, edge_step next a b ↔ edge_step prev a b.

Lemma same_edges_reachable u : reachable next u ↔ reachable prev u.
Proof.
  unfold reachable. split; apply rtc_subrel; intros a b; by apply Hsame.
Qed.

Lemma same_edges_acyclic : acyclic next ↔ acyclic prev.
Proof.
  split; intros Hacyc a Hcyc; apply (Hacyc a);
    refine (tc_congruence (λ x, x) _ _ _ _ Hcyc); intros x y; by apply Hsame.
Qed.
End SameEdges.

Lemma edge_step_rewrite (prev : Nodes) k n c :
  getNode prev k = Some n →
  (∀ z, (∃ e, e ∈ c ∧ connected e = Some z) ↔
        (∃ e, e ∈ children n ∧ connected e = Some z)) →
  ∀ a b, edge_step (<[k := Some (with_children n c)]> prev) a b ↔ edge_step prev a b.
Proof.
  intros Hk Hc a b. unfold edge_step.
  destruct (decide (a = k)) as [->|Hne].
  - rewrite getNode_insert, Hk. split.
    + intros (n' & e & [= <-] & Hin & He). simpl in Hin.
      destruct (proj1 (Hc b)) as (e' & Hin' & He'); [by exists e|].
      by exists n, e'.
    + intros (n' & e & [= <-] & Hin & He).
      destruct (proj2 (Hc b)) as (e' & Hin' & He'); [by exists e|].
      by exists (with_children n c), e'.
  - by rewrite getNode_insert_ne.
Qed.

(** X13. [updateLabel] on a stored node replaces that node's label and
    nothing else: id, kind and edges of the node, the keys of the map and
    all other entries stay, and with them the edges, reachability from the
    root and acyclicity.  For any id the last label written wins. *)
Theorem updateLabel_changes_label_only
    (prev : Nodes) (id label : string) (n : WorkflowNode) :
  getNode prev id = Some n →
  getNode (updateLabel id label prev) id =
    Some (mkNode (node_id n) label (node_type n) (children n)) ∧
  dom (updateLabel id label prev) = dom prev ∧
  (∀ k, k ≠ id → updateLabel id label prev !! k = prev !! k) ∧
  (∀ a b, edge_step (updateLabel id label prev) a b ↔ edge_step prev a b) ∧
  (∀ u, reachable (updateLabel id label prev) u ↔ reachable prev u) ∧
  (acyclic (updateLabel id label prev) ↔ acyclic prev) ∧
  (∀ id' l1 l2,
     updateLabel id' l2 (updateLabel id' l1 prev) = updateLabel id' l2 prev).
Proof.
  intros Hn.
  assert (updateLabel id label prev = <[id := Some (with_label n label)]> prev)
    as Heq by (unfold updateLabel; by rewrite Hn).
  assert (∀ a b, edge_step (updateLabel id label prev) a b ↔ edge_step prev a b)
    as Hsame.
  { rewrite Heq.
    change (with_label n label) with (with_children (with_label n label) (children n)).
    intros a b. unfold edge_step.
    destruct (decide (a = id)) as [->|Hne].
    - rewrite getNode_insert, Hn. split.
      + intros (n' & e & [= <-] & Hin & He). by exists n, e.
      + intros (n' & e & [= <-] & Hin & He). by eexists _, e.
    - by rewrite getNode_insert_ne. }
  split; [by rewrite Heq, getNode_insert|]. split.
  { rewrite Heq. apply getNode_Some in Hn.
    apply dom_insert_lookup_L. by rewrite Hn. }
  split; [intros k Hk; by rewrite Heq, lookup_insert_ne|].
  split; [done|]. split; [by apply same_edges_reachable|].
  split; [by apply same_edges_acyclic|].
  intros id' l1 l2. unfold updateLabel at 1 2.
  rewrite getNode_insert.
  destruct (getNode prev id') as [n'|] eqn:Hn'.
  - rewrite insert_insert_eq. unfold updateLabel. by rewrite Hn'.
  - rewrite insert_insert_eq. unfold updateLabel. by rewrite Hn'.
Qed.

(** X14. AddBranchPath, when it changes the graph, changes one Branch node
    by one unconnected edge at the end: keys and all other entries stay,
    every edge that was there keeps its index, and the edges followed by
    the traversal, reachability from the root and acyclicity are as
    before. *)
Theorem addBranchPath_keeps_structure (prev next : Nodes) (nodeId : string) :
  addBranchPath nodeId prev = Fresh next →
  ∃ node added,
    getNode prev nodeId = Some node ∧ node_type node = branch ∧
    getNode next nodeId = Some (with_children node (children node ++ [added])) ∧
    connected added = None ∧
    dom next = dom prev ∧
    (∀ k, k ≠ nodeId → next !! k = prev !! k) ∧
    (∀ a b, edge_step next a b ↔ edge_step prev a b) ∧
    (∀ u, reachable next u ↔ reachable prev u) ∧
    (acyclic next ↔ acyclic prev).
Proof.
  unfold addBranchPath.
  destruct (getNode prev nodeId) as [node|] eqn:Hn; [|done].
  case_decide as Hk; [|done]. intros [= <-].
  eexists node, _. split; [done|]. split; [done|].
  split; [by rewrite getNode_insert|]. split; [done|].
  assert (∀ a b, edge_step (<[nodeId := Some (with_children node
                    (children node ++
                     [mkEdge None ("Path " +:+ pretty (length (children node) + 1))]))]>
                    prev) a b ↔ edge_step prev a b) as Hsame.
  { apply edge_step_rewrite; [done|]. intros z. split.
    - intros (e & [Hin|Hin]%elem_of_app & He); [by exists e|].
      by apply list_elem_of_singleton in Hin as ->.
    - intros (e & Hin & He). exists e. split; [|done]. apply elem_of_app. by left. }
  split.
  { apply getNode_Some in Hn.
    apply dom_insert_lookup_L. by rewrite Hn. }
  split; [intros k Hne; by rewrite lookup_insert_ne|].
  split; [done|]. split; [by apply same_edges_reachable|].
  by apply same_edges_acyclic.
Qed.

(** ** The state along arbitrary runs *)

Section RunsMore.
Implicit Types (st : AppState) (op : Op).

Lemma step_first_entry fuel st op st' :
  state_ok st → step fuel st op = Some st' →
  history st' !! 0 = history st !! 0.
Proof.
  intros Hok Hstep.
  assert (∀ (updater : Nodes → option Outcome) track,
            applyChange updater track st = Some st' →
            history st' !! 0 = history st !! 0) as Happly.
  { intros updater track. unfold applyChange.
    destruct (updater (nodes st)) as [[|next]|]; [by intros [= <-]| |done].
    destruct track; [|by intros [= <-]].
    destruct (cloneNodes next); [|done]. intros [= <-]. simpl.
    destruct Hok as (_ & _ & _ & Hlt).
    rewrite lookup_app_l by (rewrite length_take; lia).
    by rewrite lookup_take_lt by lia. }
  assert (∀ i, restore i st = Some st' → history st' !! 0 = history st !! 0)
    as Hrestore.
  { intros i Hr. by destruct (restore_ok _ _ _ Hok Hr) as (_ & -> & _). }
  destruct op as [p bl kind|t|id label|nodeId| |]; simpl in Hstep.
  - by eapply Happly.
  - case_decide; [by injection Hstep as <-|]. by eapply Happly.
  - by injection Hstep as <-.
  - by eapply Happly.
  - unfold undo in Hstep. case_decide; [by injection Hstep as <-|].
    by eapply Hrestore.
  - unfold redo in Hstep. case_decide; [by injection Hstep as <-|].
    by eapply Hrestore.
Qed.

Lemma run_first_entry st ops st' :
  state_ok st → run st ops = Some st' → history st' !! 0 = history st !! 0.
Proof.
  revert st. induction ops as [|[fuel op] ops IH]; intros st Hok; simpl.
  - by intros [= <-].
  - destruct (step fuel st op) as [s1|] eqn:Hstep; [|done]. intros Hrun.
    rewrite (IH s1); [by eapply step_first_entry|by eapply step_ok|done].
Qed.

Lemma restore_entry i st h :
  state_ok st → history st !! i = Some h →
  restore i st = Some (mkState h (history st) i).
Proof.
  intros (_ & _ & Hhist & _) Hi. unfold restore. rewrite Hi.
  pose proof (Forall_lookup_1 _ _ _ _ Hhist Hi) as (_ & Hcoh & Hdef).
  by rewrite (cloneNodes_defined h Hcoh Hdef).
Qed.

Lemma undo_is_Some st : state_ok st → is_Some (undo st).
Proof.
  intros Hok. unfold undo. case_decide; [done|].
  destruct Hok as (? & ? & ? & Hlt).
  destruct (lookup_lt_is_Some_2 (history st) (historyIndex st - 1)) as [h Hh];
    [lia|].
  rewrite (restore_entry _ _ h); [done| |done]. by repeat split.
Qed.

Lemma redo_is_Some st : state_ok st → is_Some (redo st).
Proof.
  intros Hok. unfold redo. case_decide; [done|].
  destruct (lookup_lt_is_Some_2 (history st) (historyIndex st + 1)) as [h Hh];
    [lia|].
  by rewrite (restore_entry _ _ h).
Qed.

(** Without a label edit the live graph stays the entry under the cursor. *)
Lemma step_synced fuel st op st' :
  state_ok st → live_synced st →
  (∀ id label, op ≠ UpdateLabel id label) →
  step fuel st op = Some st' → live_synced st'.
Proof.
  intros Hok Hsync Hop Hstep.
  assert (∀ i, restore i st = Some st' → live_synced st') as Hrestore.
  { intros i Hr. destruct (restore_ok _ _ _ Hok Hr) as (_ & Hh & Hi & Hn).
    unfold live_synced. by rewrite Hh, Hi. }
  destruct (trackable op) eqn:Htr.
  - pose proof (step_ok _ _ _ _ Hok Hstep) as (_ & Hcoh & _ & _).
    destruct (step_trackable _ _ _ _ Htr Hstep)
      as [(_ & snap & Hsnap & Hhist & Hidx)|[_ ->]]; [|done].
    destruct (cloneNodes_coherent _ _ Hcoh Hsnap) as [-> _].
    unfold live_synced. rewrite Hhist, Hidx.
    destruct Hok as (_ & _ & _ & Hlt).
    rewrite lookup_app_r by (rewrite length_take; lia).
    rewrite length_take.
    by replace (historyIndex st + 1 - (historyIndex st + 1) `min` length (history st))
      with 0 by lia.
  - destruct op as [| |id label| | |]; try done; simpl in Hstep.
    + by destruct (Hop id label).
    + unfold undo in Hstep. case_decide; [by injection Hstep as <-|].
      by eapply Hrestore.
    + unfold redo in Hstep. case_decide; [by injection Hstep as <-|].
      by eapply Hrestore.
Qed.
End RunsMore.


(** X16. In every state reached from the default graph Undo and Redo
    answer without a fault, and so does every later Undo and Redo: the
    cursor lies inside the history and no history entry binds a key to
    [undefined]. *)
Theorem undo_redo_never_fault
    (st0 st : AppState) (ops : list (nat * Op)) (fuel : nat) :
  initState defaultGraph = Some st0 →
  run st0 ops = Some st →
  historyIndex st < length (history st) ∧
  Forall all_defined (history st) ∧
  (∃ st1, step fuel st Undo = Some st1) ∧
  (∃ st2, step fuel st Redo = Some st2) ∧
  (∀ n b, ∃ st', run st (replicate n (fuel, if b : bool then Undo else Redo))
                = Some st').
Proof.
  intros Hinit Hrun.
  pose proof (initState_default_ok _ Hinit) as Hok0.
  pose proof (run_ok _ _ _ Hok0 Hrun) as Hok.
  split; [by destruct Hok as (_ & _ & _ & ?)|]. split.
  { destruct Hok as (_ & _ & Hh & _). eapply Forall_impl; [exact Hh|].
    by intros h (_ & _ & ?). }
  split; [by apply undo_is_Some|]. split; [by apply redo_is_Some|].
  intros n b. clear Hrun. revert st Hok.
  induction n as [|n IH]; intros st Hok; simpl; [by eexists|].
  assert (is_Some (step fuel st (if b then Undo else Redo))) as [s1 H1].
  { destruct b; [by apply undo_is_Some|by apply redo_is_Some]. }
  rewrite H1. apply IH. by eapply step_ok.
Qed.

(** X17. Whatever was done - commits, label edits, undos and redos in any
    order - the first history entry of a state reached from the default
    graph is the default graph, and Undo repeated as often as the cursor
    is high ends with the cursor at 0 and, if the cursor was not 0 already,
    the default graph live. *)
Theorem history_keeps_start
    (st0 st : AppState) (ops : list (nat * Op)) (fuel : nat) :
  initState defaultGraph = Some st0 →
  run st0 ops = Some st →
  history st !! 0 = Some defaultGraph ∧
  ∃ st',
    run st (replicate (historyIndex st) (fuel, Undo)) = Some st' ∧
    historyIndex st' = 0 ∧ history st' = history st ∧
    (0 < historyIndex st → nodes st' = defaultGraph).
Proof.
  intros Hinit Hrun.
  pose proof (initState_default_ok _ Hinit) as Hok0.
  pose proof (run_ok _ _ _ Hok0 Hrun) as Hok.
  pose proof (run_first_entry _ _ _ Hok0 Hrun) as H0.
  rewrite initState_default in Hinit. injection Hinit as <-. simpl in H0.
  split; [done|].
  destruct (undo_to_start st fuel Hok) as (st' & Hundo & Hh & Hi & Hn).
  exists st'. split; [done|]. split; [done|]. split; [done|].
  intros Hpos. specialize (Hn Hpos). rewrite H0 in Hn. by injection Hn as <-.
Qed.

Lemma undo_then_redo (st : AppState) :
  state_ok st → live_synced st → 0 < historyIndex st →
  ∃ st1, undo st = Some st1 ∧ historyIndex st1 = historyIndex st - 1 ∧
         redo st1 = Some st.
Proof.
  intros Hok Hsync Hpos. pose proof Hok as (_ & _ & Hhist & Hlt).
  destruct st as [g hist idx]. unfold live_synced in Hsync. simpl in *.
  destruct (lookup_lt_is_Some_2 hist (idx - 1)) as [h Hh]; [lia|].
  assert (state_ok (mkState h hist (idx - 1))) as Hok1.
  { pose proof (Forall_lookup_1 _ _ _ _ Hhist Hh) as (Hr & Hc & _).
    split; [done|]. split; [done|]. split; [done|]. simpl. lia. }
  exists (mkState h hist (idx - 1)). unfold undo, redo. simpl.
  rewrite decide_False by lia.
  rewrite (restore_entry _ _ h Hok Hh). split; [done|]. split; [done|].
  rewrite decide_False by lia.
  replace (idx - 1 + 1) with idx by lia.
  by rewrite (restore_entry _ _ g Hok1 Hsync).
Qed.

Lemma redo_then_undo (st : AppState) :
  state_ok st → live_synced st →
  historyIndex st + 1 < length (history st) →
  ∃ st1, redo st = Some st1 ∧ historyIndex st1 = historyIndex st + 1 ∧
         undo st1 = Some st.
Proof.
  intros Hok Hsync Hnext. pose proof Hok as (_ & _ & Hhist & Hlt).
  destruct st as [g hist idx]. unfold live_synced in Hsync. simpl in *.
  destruct (lookup_lt_is_Some_2 hist (idx + 1)) as [h Hh]; [lia|].
  assert (state_ok (mkState h hist (idx + 1))) as Hok1.
  { pose proof (Forall_lookup_1 _ _ _ _ Hhist Hh) as (Hr & Hc & _).
    split; [done|]. split; [done|]. split; [done|]. simpl. lia. }
  exists (mkState h hist (idx + 1)). unfold undo, redo. simpl.
  rewrite decide_False by lia.
  rewrite (restore_entry _ _ h Hok Hh). split; [done|]. split; [done|].
  rewrite decide_False by lia.
  replace (idx + 1 - 1) with idx by lia.
  by rewrite (restore_entry _ _ g Hok1 Hsync).
Qed.

(** X18. Undo and Redo undo each other: in a sound state whose live graph
    is the entry under the cursor, Undo followed by Redo, and Redo followed
    by Undo, give back the very state, whenever the first of the two moves
    the cursor. *)
Theorem undo_redo_inverse (st : AppState) :
  state_ok st → live_synced st →
  (0 < historyIndex st →
   ∃ st1, undo st = Some st1 ∧ historyIndex st1 = historyIndex st - 1 ∧
          redo st1 = Some st) ∧
  (historyIndex st + 1 < length (history st) →
   ∃ st1, redo st = Some st1 ∧ historyIndex st1 = historyIndex st + 1 ∧
          undo st1 = Some st).
Proof.
  intros Hok Hsync. split.
  - by apply undo_then_redo.
  - by apply redo_then_undo.
Qed.

(** X19. Right after a commit Redo does nothing; Undo brings back exactly
    the graph that was live before the commit (when that graph was the
    entry under the cursor), and Redo after that Undo brings back the
    committed state. *)
Theorem commit_then_undo_redo
    (fuel : nat) (st st1 : AppState) (op : Op) :
  state_ok st → live_synced st →
  trackable op = true →
  step fuel st op = Some st1 →
  commits_here fuel st op = true →
  redo st1 = Some st1 ∧
  ∃ st2,
    undo st1 = Some st2 ∧
    nodes st2 = nodes st ∧ historyIndex st2 = historyIndex st ∧
    redo st2 = Some st1.
Proof.
  intros Hok Hsync Htr Hstep Hc.
  pose proof (step_ok _ _ _ _ Hok Hstep) as Hok1.
  assert (live_synced st1) as Hs1.
  { apply (step_synced fuel st op st1 Hok Hsync); [|done].
    intros id label ->. done. }
  destruct (step_trackable _ _ _ _ Htr Hstep)
    as [(_ & snap & Hsnap & Hhist & Hidx)|[Hno _]]; [|congruence].
  pose proof Hok as (_ & _ & _ & Hlt).
  assert (length (history st1) = historyIndex st1 + 1) as Hlen.
  { rewrite Hhist, Hidx, length_app, length_take. simpl. lia. }
  split.
  { unfold redo. by rewrite decide_True by lia. }
  destruct (undo_then_redo st1 Hok1 Hs1) as (st2 & Hu & Hi2 & Hr); [lia|].
  exists st2. split; [done|]. split; [|split; [lia|done]].
  unfold undo in Hu. rewrite decide_False in Hu by lia.
  destruct (restore_ok _ _ _ Hok1 Hu) as (_ & _ & _ & Hn).
  rewrite Hhist, Hidx in Hn.
  replace (historyIndex st + 1 - 1) with (historyIndex st) in Hn by lia.
  rewrite lookup_app_l in Hn by (rewrite length_take; lia).
  rewrite lookup_take_lt in Hn by lia.
  unfold live_synced in Hsync. congruence.
Qed.

(** ** The view *)

Section View.
Implicit Types (map : Nodes) (node : WorkflowNode).

Lemma view_connected node e c :
  e ∈ viewEdges node → connected e = Some c →
  ∃ e', e' ∈ children node ∧ connected e' = Some c.
Proof.
  unfold viewEdges. destruct (node_type node).
  - destruct (children node) as [|e0 rest] eqn:Hch.
    + by intros ->%list_elem_of_singleton.
    + intros Hin Hc. by exists e.
  - intros Hin Hc. exists e. split; [|done]. by eapply ensure_connected_elem.
  - by intros ?%elem_of_nil.
Qed.

Lemma view_connected_shaped node e c :
  node_shaped node → e ∈ children node → connected e = Some c →
  ∃ e', e' ∈ viewEdges node ∧ connected e' = Some c.
Proof.
  unfold node_shaped, viewEdges. destruct (node_type node).
  - intros _ Hin Hc. destruct (children node) as [|e0 rest] eqn:Hch.
    + by apply elem_of_nil in Hin.
    + by exists e.
  - intros _ Hin Hc. exists e. split; [by apply ensure_elem|done].
  - intros -> Hin. by apply elem_of_nil in Hin.
Qed.

Lemma renderEdges_elem rec (edges : list Edge) ids u :
  renderEdges rec edges = Some ids →
  u ∈ ids ↔
  ∃ e c sub, e ∈ edges ∧ connected e = Some c ∧ rec c = Some sub ∧ u ∈ sub.
Proof.
  revert ids. induction edges as [|e rest IH]; intros ids; simpl.
  - intros [= <-]. split; [by intros ?%elem_of_nil|].
    by intros (e & c & sub & ?%elem_of_nil & _).
  - intros (below & Hbelow & (after & Hafter & [= <-])%bind_Some)%bind_Some.
    rewrite elem_of_app, (IH _ Hafter). split.
    + intros [Hin|(e0 & c & sub & Hin & Hc & Hr & Hu)].
      * destruct (connected e) as [c|] eqn:Hc.
        -- exists e, c, below. split; [by left|done].
        -- injection Hbelow as <-. by apply elem_of_nil in Hin.
      * exists e0, c, sub. split; [by right|done].
    + intros (e0 & c & sub & Hin & Hc & Hr & Hu).
      apply elem_of_cons in Hin as [->|Hin].
      * left. rewrite Hc in Hbelow. congruence.
      * right. by exists e0, c, sub.
Qed.

Lemma renderEdges_is_Some rec (edges : list Edge) :
  (∀ e c, e ∈ edges → connected e = Some c → is_Some (rec c)) →
  is_Some (renderEdges rec edges).
Proof.
  induction edges as [|e rest IH]; intros Hrec; simpl; [done|].
  assert (is_Some (match connected e with
                   | Some childId => rec childId
                   | None => Some []
                   end)) as [below ->].
  { destruct (connected e) as [c|] eqn:Hc; [|done].
    eapply Hrec; [by left|done]. }
  simpl. destruct IH as [after ->]; [|done].
  intros e0 c Hin. apply Hrec. by right.
Qed.

Lemma renderNodeView_is_Some map fuel cur (anc : list string) :
  acyclic map → NoDup anc →
  (∀ a, a ∈ anc → is_Some (map !! a) ∧ tc (edge_step map) a cur) →
  size map < fuel + length anc →
  is_Some (renderNodeView fuel cur map).
Proof.
  intros Hacyc. revert cur anc.
  induction fuel as [|fuel IH]; intros cur anc Hnd Hanc Hsize.
  - pose proof (ancestors_bound map anc Hnd) as Hb.
    assert (length anc ≤ size map); [|simpl in *; lia].
    apply Hb. intros a Ha. by apply Hanc.
  - simpl. destruct (getNode map cur) as [node|] eqn:Hnode; [|done].
    destruct (renderEdges_is_Some
                (λ childId, renderNodeView fuel childId map) (viewEdges node))
      as [below ->]; [|done].
    intros e c Hin Hc.
    destruct (view_connected _ _ _ Hin Hc) as (e' & Hin' & Hc').
    assert (edge_step map cur c) as Hstep by (by exists node, e').
    apply (IH c (cur :: anc)).
    + apply NoDup_cons. split; [|done].
      intros Hcur. apply Hanc in Hcur as [_ Hcyc]. by apply (Hacyc cur).
    + intros a [->|Ha]%elem_of_cons.
      * split; [|by apply tc_once].
        apply getNode_Some in Hnode. by rewrite Hnode.
      * destruct (Hanc a Ha) as [? Htc]. split; [done|].
        eapply tc_r; done.
    + simpl. lia.
Qed.

Lemma renderNodeView_sound fuel cur map ids u :
  renderNodeView fuel cur map = Some ids → u ∈ ids →
  is_Some (getNode map u) ∧
  (u = cur ∨ ∃ owner i, reachable_edge map cur owner i (Some u) ∧ truthy u = true).
Proof.
  revert cur ids. induction fuel as [|fuel IH]; intros cur ids; simpl; [done|].
  destruct (getNode map cur) as [node|] eqn:Hnode;
    [|by intros [= <-] ?%elem_of_nil].
  intros (below & Hbelow & [= <-])%bind_Some [->|Hin]%elem_of_cons.
  { split; [by rewrite Hnode|by left]. }
  apply (renderEdges_elem _ _ _ _ Hbelow) in Hin
    as (e & c & sub & Hine & Hc & Hr & Hu).
  destruct (IH _ _ Hr Hu) as [Hstored Hwhere]. split; [done|]. right.
  destruct (view_connected _ _ _ Hine Hc) as (e' & Hin' & Hc').
  destruct Hwhere as [->|(owner & i & [Hpath Hedge] & Htr)].
  - apply list_elem_of_lookup in Hin' as [j Hj].
    pose proof Hc' as [Hid Hne]%connected_Some.
    exists cur, j. split; [|by destruct c].
    split; [done|]. by exists node, e'.
  - exists owner, i. split; [|done]. split; [|done].
    eapply rtc_l; [|exact Hpath]. by exists node, e'.
Qed.

Lemma renderNodeView_complete fuel cur map ids u :
  shaped map →
  renderNodeView fuel cur map = Some ids →
  rtc (edge_step map) cur u → is_Some (getNode map u) → u ∈ ids.
Proof.
  intros Hshaped. revert cur ids.
  induction fuel as [|fuel IH]; intros cur ids; simpl; [done|].
  intros Hrender Hpath Hu.
  destruct Hpath as [|cur c u (node & e & Hnode & Hin & Hc) Hrest].
  - destruct Hu as [n Hn]. rewrite Hn in Hrender.
    apply bind_Some in Hrender as (below & _ & [= <-]). by left.
  - rewrite Hnode in Hrender.
    apply bind_Some in Hrender as (below & Hbelow & [= <-]). right.
    destruct (view_connected_shaped node e c (Hshaped _ _ Hnode) Hin Hc)
      as (e' & Hin' & Hc').
    assert (is_Some (renderNodeView fuel c map)) as [sub Hsub].
    { clear -Hbelow Hin' Hc'. revert below Hbelow.
      induction (viewEdges node) as [|e0 rest IHr]; intros below; simpl.
      - by apply elem_of_nil in Hin'.
      - intros (b & Hb & (after & Hafter & _)%bind_Some)%bind_Some.
        apply elem_of_cons in Hin' as [<-|Hin'].
        + rewrite Hc' in Hb. by exists b.
        + by eapply IHr. }
    apply (renderEdges_elem _ _ _ _ Hbelow).
    exists e', c, sub. split; [done|]. split; [done|]. split; [done|].
    by eapply IH.
Qed.
End View.

Lemma reachable_edge_target (map : Nodes) from owner i u :
  reachable_edge map from owner i (Some u) → truthy u = true →
  rtc (edge_step map) from u.
Proof.
  intros [Hpath (n & e & Hn & He & Hid)] Htr.
  eapply rtc_r; [exact Hpath|]. exists n, e.
  split; [done|]. split; [by eapply list_elem_of_lookup_2|].
  by apply connected_truthy.
Qed.

(** X20. In an acyclic map whose edges target no name of
    [Object.prototype], the view of the root ends, and every card it shows
    is a stored node reachable from the root; when the stored nodes have
    the shapes of their kinds, it shows every such node. *)
Theorem view_shows_reachable (map : Nodes) :
  acyclic map →
  plain_targets map →
  ∃ ids,
    renderNodeView (S (size map)) rootId map = Some ids ∧
    (∀ u, u ∈ ids → is_Some (getNode map u) ∧ reachable map u) ∧
    (shaped map →
     ∀ u, is_Some (getNode map u) → reachable map u → u ∈ ids).
Proof.
  intros Hacyc _.
  destruct (renderNodeView_is_Some map (S (size map)) rootId [] Hacyc)
    as [ids Hids].
  { apply NoDup_nil_2. }
  { by intros a ?%elem_of_nil. }
  { simpl. lia. }
  exists ids. split; [done|]. split.
  - intros u Hu.
    destruct (renderNodeView_sound _ _ _ _ _ Hids Hu)
      as [Hstored [->|(owner & i & Hedge & Htr)]].
    + split; [done|apply rtc_refl].
    + split; [done|]. by eapply reachable_edge_target.
  - intros Hshaped u Hu Hreach. by eapply renderNodeView_complete.
Qed.

Lemma all_defined_insert (prev : Nodes) k n :
  all_defined prev → all_defined (<[k := Some n]> prev).
Proof.
  intros Hdef k' v. rewrite lookup_insert. case_decide.
  - intros [= <-]. by eexists.
  - apply Hdef.
Qed.

Lemma all_defined_delete (prev : Nodes) k :
  all_defined prev → all_defined (delete k prev).
Proof.
  intros Hdef k' v. rewrite lookup_delete. case_decide; [done|]. apply Hdef.
Qed.

Lemma addNode_defined p bl kind newId (prev next : Nodes) :
  all_defined prev → addNode p bl kind newId prev = Fresh next →
  all_defined next.
Proof.
  intros Hdef. unfold addNode.
  destruct (getNode prev p) as [parent|]; [|done].
  destruct (node_type parent); intros [= <-]; by repeat apply all_defined_insert.
Qed.

Lemma deleteNode_updater_defined fuel t (prev next : Nodes) :
  all_defined prev → deleteNode_updater fuel t prev = Some (Fresh next) →
  all_defined next.
Proof.
  intros Hdef. unfold deleteNode_updater.
  destruct (findParent fuel rootId t prev) as [[[p i]|]|]; [|done|done].
  destruct (getNode prev p) as [parent|]; [|done].
  destruct (getNode prev t) as [target|]; [|done].
  destruct (node_type parent); intros [= <-];
    try apply all_defined_insert; by apply all_defined_delete.
Qed.

Lemma addBranchPath_defined nodeId (prev next : Nodes) :
  all_defined prev → addBranchPath nodeId prev = Fresh next → all_defined next.
Proof.
  intros Hdef. unfold addBranchPath.
  destruct (getNode prev nodeId) as [node|]; [|done].
  case_decide; [|done]. intros [= <-]. by apply all_defined_insert.
Qed.

Lemma applyChange_committed (updater : Nodes → option Outcome) st next :
  updater (nodes st) = Some (Fresh next) → graph_ok next → all_defined next →
  committed st next (applyChange updater true st).
Proof.
  intros Hu [_ Hcoh] Hdef. unfold committed.
  by rewrite (applyChange_commit _ _ _ Hu), (cloneNodes_defined _ Hcoh Hdef).
Qed.

(** X21. In a state whose live graph stores the root as an Action and every
    node under its id field, is acyclic, binds no key to [undefined], has
    keys the counter counts exactly and edges that target no name of
    [Object.prototype], every control that the view of the root
    shows leads to a commit: the updater hands back a new graph, which
    becomes the live graph, and the history is cut after the cursor and
    extended by a snapshot of that graph, the cursor on it.  Delete is shown on every card but the root's,
    Insert on every listed edge, with the label the card passes, and
    AddBranchPath on Branch cards.  An End card lists no edge, so no Insert
    is shown where [addNode] would refuse. *)
Theorem view_controls_commit (st : AppState) (ids : list string) (u : string) :
  graph_ok (nodes st) →
  all_defined (nodes st) →
  acyclic (nodes st) →
  plain_targets (nodes st) →
  counted_keys (nodes st) →
  renderNodeView (S (size (nodes st))) rootId (nodes st) = Some ids →
  u ∈ ids →
  ∃ node,
    getNode (nodes st) u = Some node ∧
    (u ≠ rootId →
     ∃ next,
       deleteNode (S (size (nodes st))) u (nodes st) = Some (Fresh next) ∧
       committed st next (step (S (size (nodes st))) st (Delete u))) ∧
    (∀ e kind fuel, e ∈ viewEdges node →
       ∃ next,
         addNode u (insertLabel node e) kind (nextId (nodes st)) (nodes st)
           = Fresh next ∧
         committed st next (step fuel st (Insert u (insertLabel node e) kind))) ∧
    (node_type node = branch →
     ∀ fuel, ∃ next,
       addBranchPath u (nodes st) = Fresh next ∧
       committed st next (step fuel st (AddBranchPath u))) ∧
    (node_type node = end_ → viewEdges node = []).
Proof.
  intros Hok Hdef Hacyc _ _ Hids Hu.
  destruct (renderNodeView_sound _ _ _ _ _ Hids Hu) as [[node Hnode] Hwhere].
  exists node. split; [done|]. split; [|split; [|split]].
  - intros Hroot. destruct Hwhere as [->|(owner & i & Hedge & _)]; [done|].
    destruct (findParent_locates _ _ _ _ _ Hacyc Hedge) as [[p j] Hfind].
    destruct (located_slot_owner _ _ _ _ _ Hfind) as [parent Hp].
    pose proof (deleteNode_located _ _ _ _ _ _ _ Hroot Hfind Hp Hnode) as Hdel.
    eexists. split; [exact Hdel|].
    unfold deleteNode in Hdel. rewrite decide_False in Hdel by done.
    simpl. rewrite decide_False by done.
    eapply applyChange_committed; [exact Hdel| |].
    + by eapply deleteNode_updater_ok.
    + by eapply deleteNode_updater_defined.
  - intros e kind fuel Hin.
    assert (∃ next, addNode u (insertLabel node e) kind (nextId (nodes st))
                      (nodes st) = Fresh next) as [next Hadd].
    { unfold addNode. rewrite Hnode. unfold viewEdges in Hin.
      destruct (node_type node); [by eexists|by eexists|].
      by apply elem_of_nil in Hin. }
    exists next. split; [done|]. simpl.
    eapply (applyChange_committed
              (λ prev, Some (addNode u (insertLabel node e) kind (nextId prev) prev)));
      [by rewrite Hadd| |].
    + by eapply addNode_ok.
    + by eapply addNode_defined.
  - intros Hb fuel.
    assert (∃ next, addBranchPath u (nodes st) = Fresh next) as [next Hadd].
    { unfold addBranchPath. rewrite Hnode, decide_True by done. by eexists. }
    exists next. split; [done|]. simpl.
    eapply (applyChange_committed (λ prev, Some (addBranchPath u prev)));
      [by rewrite Hadd| |].
    + by eapply addBranchPath_ok.
    + by eapply addBranchPath_defined.
  - intros He. unfold viewEdges. by rewrite He.
Qed.

(** X22. In every state reached from the default graph the view adds
    nothing to what is stored but the blank slot of a childless Action: a
    Branch card lists exactly the stored edges (the repair on read finds
    nothing to repair), an Action card lists one edge, an End card none,
    and the connected targets listed are the stored ones. *)
Theorem view_matches_store
    (st0 st : AppState) (ops : list (nat * Op)) (k : string) (n : WorkflowNode) :
  initState defaultGraph = Some st0 →
  run st0 ops = Some st →
  getNode (nodes st) k = Some n →
  match node_type n with
  | branch => viewEdges n = children n
  | action => length (viewEdges n) = 1
  | end_ => viewEdges n = []
  end ∧
  omap connected (viewEdges n) = omap connected (children n).
Proof.
  intros Hinit Hrun Hn.
  pose proof (run_shaped _ _ _ Hinit Hrun k n Hn) as Hshape.
  clear Hinit Hrun Hn.
  unfold node_shaped in Hshape. unfold viewEdges.
  destruct (node_type n).
  - destruct (children n) as [|e [|e' rest]]; simpl in Hshape; [done|done|lia].
  - destruct Hshape as [HT HF]. by rewrite ensure_fixed.
  - by rewrite Hshape.
Qed.

(** ** Start-up *)

(** X23. Whatever was saved, as long as the map that is loaded holds nodes
    of pairwise different ids, none of them [__proto__]: the state the
    application starts in - if
    taking the two snapshots does not throw - has the cursor at 0 and one
    history entry, equal to the live graph, which files every node under
    its own id field and binds no key to [undefined].  The live graph is
    the default graph when nothing usable was saved or the saved map has no
    node under the root id, and the saved map itself when that map has a
    node under the root id and files every node under its id field. *)
Theorem initState_loadInitial (stored : option Nodes) (st : AppState) :
  clonable (loadInitial stored) →
  initState (loadInitial stored) = Some st →
  historyIndex st = 0 ∧ history st = [nodes st] ∧
  coherent (nodes st) ∧ all_defined (nodes st) ∧
  ((stored = None ∨ ∃ g, stored = Some g ∧ getNode g rootId = None) →
   nodes st = defaultGraph) ∧
  (∀ g, stored = Some g → is_Some (getNode g rootId) → coherent g →
        nodes st = g).
Proof.
  intros _. unfold initState.
  destruct (cloneNodes (loadInitial stored)) as [c|] eqn:Hc; [|done].
  intros [= <-]. simpl.
  destruct (clone_fold_result _ _ Hc) as (Hcoh & Hdef & _).
  split; [done|]. split; [done|]. split; [done|]. split; [done|]. split.
  - intros Hcase.
    assert (loadInitial stored = defaultGraph) as Hl.
    { destruct Hcase as [->|(g & -> & Hg)]; [done|]. simpl. by rewrite Hg. }
    rewrite Hl in Hc. vm_compute in Hc. by injection Hc as <-.
  - intros g -> [r Hr] Hg. simpl in Hc. rewrite Hr in Hc.
    by destruct (cloneNodes_coherent _ _ Hg Hc).
Qed.

(** ** Keys and ids over Insert and Delete *)

Lemma getNode_dom (map : Nodes) (k : string) (n : WorkflowNode) :
  getNode map k = Some n → k ∈ dom map.
Proof. intros Hn%getNode_Some. apply elem_of_dom. by rewrite Hn. Qed.

Lemma dom_insert_present (map : Nodes) (k : string) (v : option WorkflowNode) :
  k ∈ dom map → dom (<[k := v]> map) = dom map.
Proof.
  intros Hk. rewrite dom_insert_L. apply set_eq. intros x.
  rewrite elem_of_union, elem_of_singleton. split; [intros [->|?]|]; tauto.
Qed.

Lemma addNode_dom prev p l kind newId next :
  addNode p l kind newId prev = Fresh next → dom next = {[newId]} ∪ dom prev.
Proof.
  unfold addNode. destruct (getNode prev p) as [parent|] eqn:Hp; [|done].
  apply getNode_dom in Hp.
  destruct (node_type parent); intros [= <-]; try done.
  - rewrite dom_insert_present; [by rewrite dom_insert_L|].
    rewrite dom_insert_L. apply elem_of_union. by right.
  - rewrite dom_insert_present; [by rewrite dom_insert_L|].
    rewrite dom_insert_L. apply elem_of_union. by right.
Qed.

Lemma deleteNode_dom fuel prev t next :
  deleteNode fuel t prev = Some (Fresh next) →
  t ∈ dom prev ∧ dom next = dom prev ∖ {[t]}.
Proof.
  unfold deleteNode. destruct (decide (t = rootId)) as [|Hroot]; [done|].
  unfold deleteNode_updater.
  destruct (findParent fuel rootId t prev) as [[[p i]|]|] eqn:Hfind; try done.
  pose proof (located_parent_ne _ _ _ _ _ Hroot Hfind) as Hne.
  destruct (getNode prev p) as [parent|] eqn:Hp; [|done].
  destruct (getNode prev t) as [target|] eqn:Ht; [|done].
  apply getNode_dom in Hp, Ht. split; [done|].
  assert (p ∈ dom (delete t prev)) as Hin.
  { rewrite dom_delete_L. apply elem_of_difference. split; [done|].
    by rewrite elem_of_singleton. }
  destruct (node_type parent); injection H as <-.
  - rewrite dom_insert_present by done. by rewrite dom_delete_L.
  - rewrite dom_insert_present by done. by rewrite dom_delete_L.
  - by rewrite dom_delete_L.
Qed.

Lemma maxId_mono (a b : Nodes) : dom a ⊆ dom b → (maxId a ≤ maxId b)%N.
Proof.
  intros Hsub. destruct (maxId_attained a) as [->|(k & v & Hk & Hnum)]; [lia|].
  assert (k ∈ dom b) as [w Hw]%elem_of_dom.
  { apply Hsub. apply elem_of_dom. by rewrite Hk. }
  by eapply maxId_upper.
Qed.

Lemma nextId_dom (a b : Nodes) : dom a = dom b → nextId a = nextId b.
Proof.
  intros Hdom. unfold nextId.
  assert (maxId a = maxId b) as ->; [|done].
  apply N.le_antisymm; apply maxId_mono; by rewrite Hdom.
Qed.

(** X24. In a map whose keys the counter counts exactly ([counted_keys]):
    every Insert that commits adds exactly one key to the map, the id
    it was given, and every Delete that commits removes exactly one, the
    target's: whatever the kind of the parent, and however many children the
    deleted node had.  A committed Add Branch Path leaves the keys alone. *)
Theorem edits_change_one_key (fuel : nat) (prev next : Nodes) :
  counted_keys prev →
  (∀ p l kind, addNode p l kind (nextId prev) prev = Fresh next →
     (nextId prev ∉ dom prev) ∧ dom next = {[nextId prev]} ∪ dom prev ∧
     size next = S (size prev)) ∧
  (∀ t, deleteNode fuel t prev = Some (Fresh next) →
     t ∈ dom prev ∧ dom next = dom prev ∖ {[t]} ∧ S (size next) = size prev) ∧
  (∀ id, addBranchPath id prev = Fresh next → dom next = dom prev).
Proof.
  intros _.
  assert (nextId prev ∉ dom prev) as Hnew.
  { apply not_elem_of_dom, nextId_fresh. }
  split; [|split].
  - intros p l kind Hadd%addNode_dom. split; [done|]. split; [done|].
    rewrite <- !size_dom, Hadd, size_union, size_singleton; [done|].
    intros x ->%elem_of_singleton. exact Hnew.
  - intros t [Ht Hdel]%deleteNode_dom. split; [done|]. split; [done|].
    rewrite <- !size_dom, Hdel.
    assert (({[t]} : gset string) ⊆ dom prev) as Hsub.
    { by intros x ->%elem_of_singleton. }
    rewrite (size_difference _ _ Hsub).
    apply subseteq_size in Hsub. rewrite size_singleton in *. lia.
  - intros id. unfold addBranchPath.
    destruct (getNode prev id) as [node|] eqn:Hn; [|done].
    destruct (decide (node_type node = branch)); [|done].
    intros [= <-]. apply dom_insert_present. by eapply getNode_dom.
Qed.

(** X25. [idCounter] is reset from the keys of the live map after every
    change, so an id is handed out again once its node is gone: in a map
    whose keys the counter counts exactly ([counted_keys]), after an
    Insert and the Delete of the node it made, the key set is the old one
    and the id handed out next is the same id again; the graph in between
    holds a node under that id, the graph after the Delete holds none. *)
Theorem nextId_reuses_deleted (fuel : nat) (prev mid next : Nodes)
    (p : string) (l : option string) (kind : NodeType) :
  counted_keys prev →
  addNode p l kind (nextId prev) prev = Fresh mid →
  deleteNode fuel (nextId prev) mid = Some (Fresh next) →
  dom next = dom prev ∧ nextId next = nextId prev ∧
  is_Some (getNode mid (nextId next)) ∧ getNode next (nextId next) = None.
Proof.
  intros _ Hadd Hdel.
  pose proof (addNode_dom _ _ _ _ _ _ Hadd) as Hdom1.
  destruct (deleteNode_dom _ _ _ _ Hdel) as [_ Hdom2].
  assert (dom next = dom prev) as Hdom.
  { rewrite Hdom2, Hdom1. apply set_eq. intros x.
    rewrite elem_of_difference, elem_of_union, elem_of_singleton.
    pose proof (nextId_fresh prev) as Hf%not_elem_of_dom.
    split; [tauto|]. intros Hx. split; [by right|]. by intros ->. }
  split; [done|]. rewrite (nextId_dom _ _ Hdom). split; [done|]. split.
  - unfold deleteNode in Hdel.
    destruct (decide (nextId prev = rootId)); [done|].
    unfold deleteNode_updater in Hdel.
    destruct (findParent fuel rootId (nextId prev) mid) as [[[q i]|]|]; try done.
    destruct (getNode mid q); [|done].
    by destruct (getNode mid (nextId prev)).
  - unfold getNode. rewrite <- (nextId_dom _ _ Hdom), nextId_fresh. done.
Qed.

(** A map that [cloneNodes] returns unchanged files every node under its
    id field. *)
Lemma cloneNodes_coherent_check (map : Nodes) :
  cloneNodes map = Some map → coherent map ∧ all_defined map.
Proof.
  intros Hc. destruct (clone_fold_result _ _ Hc) as (? & ? & _). by split.
Qed.

(** ** The further properties on concrete graphs *)

Lemma stateFork_ok : state_ok stateFork ∧ live_synced stateFork.
Proof.
  split.
  - apply (run_ok defaultState opsFork); [by apply initState_default_ok|].
    vm_compute. reflexivity.
  - vm_compute. reflexivity.
Qed.

Lemma stateForkUndone_ok : state_ok stateForkUndone ∧ live_synced stateForkUndone.
Proof.
  split.
  - apply (run_ok defaultState (opsFork ++ [(9, Undo)]));
      [by apply initState_default_ok|].
    vm_compute. reflexivity.
  - vm_compute. reflexivity.
Qed.

Lemma sampleFork_acyclic : acyclic sampleFork.
Proof. apply (rank_decreases_acyclic rank_by_id). vm_compute. reflexivity. Qed.

Lemma sampleNested_acyclic : acyclic sampleNested.
Proof. apply (rank_decreases_acyclic rank_by_id). vm_compute. reflexivity. Qed.

(** X2, at [sampleFork]. *)
Lemma cloneNodes_copy_witness :
  coherent sampleFork ∧ all_defined sampleFork ∧
  cloneNodes sampleFork = Some sampleFork.
Proof.
  destruct (cloneNodes_copy sampleFork sampleFork) as (Hc & Hd & _ & Hf & _).
  - apply clonable_checked. vm_compute. reflexivity.
  - vm_compute. reflexivity.
  - by split; [|split].
Defined.

(** X4, at [sampleFork]: the search for node-3. *)
Lemma findParent_match_is_edge_witness :
  ∃ n e,
    getNode sampleFork "node-1" = Some n ∧
    children n !! 1 = Some e ∧ 1 < length (children n) ∧
    edge_id e = Some "node-3" ∧
    rtc (edge_step sampleFork) rootId "node-1" ∧
    (rootId ≠ "node-3" → "node-1" ≠ "node-3").
Proof.
  apply (findParent_match_is_edge 9 sampleFork rootId "node-3" "node-1" 1).
  vm_compute. reflexivity.
Defined.

(** X5, at [sampleFork]: the id handed out is node-4. *)
Lemma nextId_is_new_witness :
  nextId sampleFork = "node-4" ∧ sampleFork !! "node-4" = None ∧
  (maxId sampleFork + 1 ≤ 2 ^ 53)%N.
Proof.
  destruct (nextId_is_new sampleFork) as (Hmax & Hnew & _).
  - apply counted_keys_checked. vm_compute. reflexivity.
  - split; [reflexivity|]. split; [exact Hnew|exact Hmax].
Defined.

(** X6, at [sampleFork]: Insert under the Branch node-1 on "False". *)
Lemma addNode_under_branch_witness :
  ∃ slot eo next,
    ensureBranchEdges [mkEdge (Some "node-2") "True"; mkEdge (Some "node-3") "False"]
      !! slot = Some eo ∧
    edge_label eo = "False" ∧
    addNode "node-1" (Some "False") action (nextId sampleFork) sampleFork
      = Fresh next.
Proof.
  destruct (addNode_under_branch sampleFork "node-1"
              (mkNode "node-1" "Branch" branch
                 [mkEdge (Some "node-2") "True"; mkEdge (Some "node-3") "False"])
              (Some "False") action)
    as (slot & eo & next & Heo & Hsel & Hadd & _).
  - apply counted_keys_checked. vm_compute. reflexivity.
  - vm_compute. reflexivity.
  - reflexivity.
  - exists slot, eo, next. split; [exact Heo|]. split; [|exact Hadd].
    simpl in Hsel. destruct Hsel as [[Hl _]|[_ Hno]]; [exact Hl|].
    exfalso. apply (Hno (mkEdge (Some "node-3") "False")); [|reflexivity].
    vm_compute. in_list.
Defined.

(** X7, at [sampleFork]: Insert of a Branch under node-1 on "True". *)
Lemma addNode_keeps_reachable_witness :
  (reachable sampleFork "node-1" →
   reachable (outcome_nodes sampleFork
                (addNode "node-1" (Some "True") branch (nextId sampleFork) sampleFork))
     (nextId sampleFork)) ∧
  (branch ≠ end_ →
   (branch = action → 2 ≤ 1) →
   ∀ u, reachable sampleFork u →
        reachable (outcome_nodes sampleFork
                     (addNode "node-1" (Some "True") branch (nextId sampleFork)
                        sampleFork)) u).
Proof.
  eapply (addNode_keeps_reachable sampleFork _ "node-1"
            (mkNode "node-1" "Branch" branch
               [mkEdge (Some "node-2") "True"; mkEdge (Some "node-3") "False"])
            (Some "True") branch).
  - apply counted_keys_checked. vm_compute. reflexivity.
  - vm_compute. reflexivity.
  - vm_compute. reflexivity.
Defined.

(** X8, at [sampleFork]. *)
Lemma addNode_keeps_acyclic_witness :
  acyclic (outcome_nodes sampleFork
             (addNode "node-1" (Some "True") end_ (nextId sampleFork) sampleFork)).
Proof.
  eapply (addNode_keeps_acyclic sampleFork _ "node-1" (Some "True") end_).
  - apply counted_keys_checked. vm_compute. reflexivity.
  - apply no_edge_to_unreferenced. vm_compute. reflexivity.
  - vm_compute. reflexivity.
  - exact sampleFork_acyclic.
Defined.

(** X9, at [sampleFork]: Delete of the Branch node-1. *)
Lemma deleteNode_keeps_acyclic_witness : acyclic sampleForkDeleted.
Proof.
  eapply (deleteNode_keeps_acyclic 9 sampleFork sampleForkDeleted "node-1").
  - reflexivity.
  - vm_compute. reflexivity.
  - exact sampleFork_acyclic.
Defined.



(** X12, at [sampleFork]: Delete of node-3 hands back a new graph, and with
    fuel 1, too little for the search, Delete gives no answer. *)
Lemma deleteNode_commits_iff_witness :
  (∃ next, deleteNode 9 "node-3" sampleFork = Some (Fresh next)) ∧
  "node-3" ≠ rootId ∧ findParent 1 rootId "node-3" sampleFork = None.
Proof.
  assert (plain_targets sampleFork) as Hplain.
  { apply plain_targets_checked. vm_compute. reflexivity. }
  split.
  - apply (proj1 (deleteNode_commits_iff 9 sampleFork "node-3" Hplain)).
    split; [discriminate|]. split.
    + exists "node-1", 1. vm_compute. reflexivity.
    + eexists. vm_compute. reflexivity.
  - apply (proj2 (deleteNode_commits_iff 1 sampleFork "node-3" Hplain)).
    vm_compute. reflexivity.
Defined.

(** X13, at [sampleFork]: a new label for the Branch. *)
Lemma updateLabel_changes_label_only_witness :
  getNode (updateLabel "node-1" "Paid?" sampleFork) "node-1" =
    Some (mkNode "node-1" "Paid?" branch
            [mkEdge (Some "node-2") "True"; mkEdge (Some "node-3") "False"]) ∧
  dom (updateLabel "node-1" "Paid?" sampleFork) = dom sampleFork.
Proof.
  destruct (updateLabel_changes_label_only sampleFork "node-1" "Paid?"
              (mkNode "node-1" "Branch" branch
                 [mkEdge (Some "node-2") "True"; mkEdge (Some "node-3") "False"]))
    as (H1 & H2 & _).
  - vm_compute. reflexivity.
  - split; [exact H1|exact H2].
Defined.

(** X14, at [sampleFork]. *)
Lemma addBranchPath_keeps_structure_witness :
  ∃ node added,
    getNode sampleFork "node-1" = Some node ∧ node_type node = branch ∧
    getNode (outcome_nodes sampleFork (addBranchPath "node-1" sampleFork)) "node-1"
      = Some (with_children node (children node ++ [added])) ∧
    connected added = None.
Proof.
  destruct (addBranchPath_keeps_structure sampleFork
              (outcome_nodes sampleFork (addBranchPath "node-1" sampleFork)) "node-1")
    as (node & added & H1 & H2 & H3 & H4 & _).
  - vm_compute. reflexivity.
  - exists node, added. split; [exact H1|]. split; [exact H2|].
    split; [exact H3|exact H4].
Defined.


(** X16, on the run [opsMixed]. *)
Lemma undo_redo_never_fault_witness :
  (∃ st1, step 0 (default defaultState (run defaultState opsMixed)) Undo = Some st1) ∧
  (∃ st2, step 0 (default defaultState (run defaultState opsMixed)) Redo = Some st2).
Proof.
  destruct (undo_redo_never_fault defaultState
              (default defaultState (run defaultState opsMixed)) opsMixed 0)
    as (_ & _ & Hu & Hr & _).
  - reflexivity.
  - vm_compute. reflexivity.
  - split; [exact Hu|exact Hr].
Defined.

(** X17, on the run [opsMixed]. *)
Lemma history_keeps_start_witness :
  history (default defaultState (run defaultState opsMixed)) !! 0
    = Some defaultGraph.
Proof.
  destruct (history_keeps_start defaultState
              (default defaultState (run defaultState opsMixed)) opsMixed 0)
    as (H0 & _).
  - reflexivity.
  - vm_compute. reflexivity.
  - exact H0.
Defined.

(** X18, at the state after [opsFork] and at that state undone once. *)
Lemma undo_redo_inverse_witness :
  (∃ st1, undo stateFork = Some st1 ∧ redo st1 = Some stateFork) ∧
  (∃ st1, redo stateForkUndone = Some st1 ∧ undo st1 = Some stateForkUndone).
Proof.
  split.
  - destruct (proj1 (undo_redo_inverse stateFork
                       (proj1 stateFork_ok) (proj2 stateFork_ok)))
      as (st1 & Hu & _ & Hr).
    + vm_compute. lia.
    + exists st1. split; [exact Hu|exact Hr].
  - destruct (proj2 (undo_redo_inverse stateForkUndone
                       (proj1 stateForkUndone_ok) (proj2 stateForkUndone_ok)))
      as (st1 & Hr & _ & Hu).
    + vm_compute. lia.
    + exists st1. split; [exact Hr|exact Hu].
Defined.

(** X19, at the state after [opsFork], committing a Delete of node-3. *)
Lemma commit_then_undo_redo_witness :
  ∃ st1 st2,
    step 9 stateFork (Delete "node-3") = Some st1 ∧
    redo st1 = Some st1 ∧
    undo st1 = Some st2 ∧ nodes st2 = nodes stateFork ∧ redo st2 = Some st1.
Proof.
  destruct (step 9 stateFork (Delete "node-3")) as [st1|] eqn:Hstep;
    [|vm_compute in Hstep; discriminate].
  destruct (commit_then_undo_redo 9 stateFork st1 (Delete "node-3")
              (proj1 stateFork_ok) (proj2 stateFork_ok))
    as (Hr & st2 & Hu & Hn & _ & Hr2).
  - reflexivity.
  - exact Hstep.
  - vm_compute. reflexivity.
  - exists st1, st2. split; [reflexivity|]. split; [exact Hr|].
    split; [exact Hu|]. split; [exact Hn|exact Hr2].
Defined.

(** X20, at [sampleFork]. *)
Lemma view_shows_reachable_witness :
  ∃ ids,
    renderNodeView (S (size sampleFork)) rootId sampleFork = Some ids ∧
    (∀ u, u ∈ ids → is_Some (getNode sampleFork u) ∧ reachable sampleFork u) ∧
    (shaped sampleFork →
     ∀ u, is_Some (getNode sampleFork u) → reachable sampleFork u → u ∈ ids).
Proof.
  apply (view_shows_reachable sampleFork sampleFork_acyclic).
  apply plain_targets_checked. vm_compute. reflexivity.
Defined.

Example view_of_sampleFork :
  renderNodeView 5 rootId sampleFork =
    Some ["node-0"; "node-1"; "node-2"; "node-3"] ∧
  renderNodeView 5 rootId sampleForkDeleted = Some ["node-0"; "node-2"].
Proof. vm_compute. done. Qed.

(** X21, at the state after [opsFork]: the card of node-3. *)
Lemma view_controls_commit_witness :
  ∃ node,
    getNode (nodes stateFork) "node-3" = Some node ∧
    ("node-3" ≠ rootId →
     ∃ next,
       deleteNode (S (size (nodes stateFork))) "node-3" (nodes stateFork)
         = Some (Fresh next) ∧
       committed stateFork next
         (step (S (size (nodes stateFork))) stateFork (Delete "node-3"))) ∧
    (∀ e kind fuel, e ∈ viewEdges node →
       ∃ next,
         addNode "node-3" (insertLabel node e) kind (nextId (nodes stateFork))
           (nodes stateFork) = Fresh next ∧
         committed stateFork next
           (step fuel stateFork (Insert "node-3" (insertLabel node e) kind))) ∧
    (node_type node = branch →
     ∀ fuel, ∃ next,
       addBranchPath "node-3" (nodes stateFork) = Fresh next ∧
       committed stateFork next (step fuel stateFork (AddBranchPath "node-3"))) ∧
    (node_type node = end_ → viewEdges node = []).
Proof.
  apply (view_controls_commit stateFork
           ["node-0"; "node-1"; "node-2"; "node-3"] "node-3"
           (state_ok_graph _ (proj1 stateFork_ok))).
  - destruct (cloneNodes_coherent_check (nodes stateFork)) as [_ Hdef];
      [|exact Hdef].
    vm_compute. reflexivity.
  - apply (rank_decreases_acyclic rank_by_id). vm_compute. reflexivity.
  - apply plain_targets_checked. vm_compute. reflexivity.
  - apply counted_keys_checked. vm_compute. reflexivity.
  - vm_compute. reflexivity.
  - in_list.
Defined.

(** Delete from the card of node-3 in that state: history and cursor. *)
Example delete_from_card_commits :
  (step 5 stateFork (Delete "node-3") ≫= λ st,
   Some (historyIndex st, length (history st),
         bool_decide (last (history st) = Some (nodes st)),
         bool_decide (nodes st = nodes stateFork))) =
  Some (4, 5, true, false).
Proof. vm_compute. reflexivity. Qed.

(** X22, on the run [opsMixed]: the card of the root. *)
Lemma view_matches_store_witness :
  ∃ n, getNode (nodes (default defaultState (run defaultState opsMixed))) rootId
       = Some n ∧
       match node_type n with
       | branch => viewEdges n = children n
       | action => length (viewEdges n) = 1
       | end_ => viewEdges n = []
       end ∧
       omap connected (viewEdges n) = omap connected (children n).
Proof.
  destruct (getNode (nodes (default defaultState (run defaultState opsMixed)))
              rootId) as [n|] eqn:Hn; [|vm_compute in Hn; discriminate].
  exists n. split; [reflexivity|].
  apply (view_matches_store defaultState
           (default defaultState (run defaultState opsMixed)) opsMixed rootId n).
  - reflexivity.
  - vm_compute. reflexivity.
  - exact Hn.
Defined.

(** X23, on the saved map [savedChain]. *)
Lemma initState_loadInitial_witness :
  ∃ st, initState (loadInitial savedChain) = Some st ∧
        historyIndex st = 0 ∧ history st = [nodes st] ∧ nodes st = sampleChain.
Proof.
  destruct (initState (loadInitial savedChain)) as [st|] eqn:Hinit;
    [|vm_compute in Hinit; discriminate].
  destruct (initState_loadInitial savedChain st)
    as (Hi & Hh & Hcoh & _ & _ & Hsame);
    [apply clonable_checked; vm_compute; reflexivity|exact Hinit|].
  exists st. split; [reflexivity|]. split; [exact Hi|]. split; [exact Hh|].
  apply (Hsame sampleChain); [reflexivity|vm_compute; by eexists|].
  destruct (cloneNodes_coherent_check sampleChain) as [Hc _]; [|exact Hc].
  vm_compute. reflexivity.
Defined.

(** X24, at [sampleFork]: Insert under node-2 adds the key node-4, and
    Delete of the Branch node-1, with two children, removes the one key. *)
Lemma edits_change_one_key_witness :
  (nextId sampleFork = "node-4" ∧
   dom (outcome_nodes sampleFork
          (addNode "node-2" None action "node-4" sampleFork))
     = {["node-4"]} ∪ dom sampleFork ∧
   size (outcome_nodes sampleFork
           (addNode "node-2" None action "node-4" sampleFork))
     = S (size sampleFork)) ∧
  ("node-1" ∈ dom sampleFork ∧
   dom sampleForkDeleted = dom sampleFork ∖ {["node-1"]} ∧
   S (size sampleForkDeleted) = size sampleFork).
Proof.
  assert (counted_keys sampleFork) as Hkeys.
  { apply counted_keys_checked. vm_compute. reflexivity. }
  split.
  - split; [reflexivity|].
    apply (proj1 (edits_change_one_key 0 sampleFork
                    (outcome_nodes sampleFork
                       (addNode "node-2" None action "node-4" sampleFork))
                    Hkeys) "node-2" None action).
    vm_compute. reflexivity.
  - apply (proj1 (proj2 (edits_change_one_key 9 sampleFork sampleForkDeleted
                           Hkeys)) "node-1").
    vm_compute. reflexivity.
Defined.

(** X25, at [sampleChain]: Insert under node-1, then Delete of the new
    node. *)
Lemma nextId_reuses_deleted_witness :
  nextId (default sampleChain
            (outcome_nodes sampleChain <$>
               deleteNode 9 "node-2"
                 (outcome_nodes sampleChain
                    (addNode "node-1" None action "node-2" sampleChain))))
    = "node-2".
Proof.
  destruct (nextId_reuses_deleted 9 sampleChain
              (outcome_nodes sampleChain
                 (addNode "node-1" None action "node-2" sampleChain))
              (default sampleChain
                 (outcome_nodes sampleChain <$>
                    deleteNode 9 "node-2"
                      (outcome_nodes sampleChain
                         (addNode "node-1" None action "node-2" sampleChain))))
              "node-1" None action) as (_ & Hid & _).
  - apply counted_keys_checked. vm_compute. reflexivity.
  - vm_compute. reflexivity.
  - vm_compute. reflexivity.
  - exact Hid.
Defined.
